(** * xoshiro256: a shallow embedding of xoshiro256.hpp

    The header defines three generator classes (splitmix64, xoshiro256ss and
    its subclass xoshiro256p), the jump functions, the distribution samplers
    and the debugging helper UI64T2String.  A [uint64_t] is a [Z] in
    [0, 2^64) with the wrap-around of the unsigned arithmetic written out by
    [u64]; a [double] is a binary64 [float]; a member function that mutates
    the object takes the state and returns the result together with the new
    state.  The samplers exponential and geometric, which go through
    [std::log], are not part of the embedding. *)

From Stdlib Require Import ZArith List Lia Bool Btauto String Ascii DecimalString.
From Stdlib Require Import PrimFloat SpecFloat FloatOps.
Import ListNotations.

Local Open Scope Z_scope.

(** ** Machine words *)

(** [std::numeric_limits<uint64_t>::max()]. *)
Definition UINT64_MAX : Z := 0xFFFFFFFFFFFFFFFF.

(** Reduction of an unsigned 64-bit result: the low 64 bits. *)
Definition u64 (x : Z) : Z := Z.land x UINT64_MAX.

Definition is_u64 (x : Z) : Prop := 0 <= x < 2 ^ 64.

(** [rotl]: [(x << k) | (x >> (64 - k))] on [uint64_t]. *)
Definition rotl (x k : Z) : Z :=
  Z.lor (u64 (Z.shiftl x k)) (Z.shiftr x (64 - k)).

(** ** splitmix64 *)

Module splitmix64.

(** The object is its single member [x]. *)
Definition t : Type := Z.

(** [splitmix64::splitmix64(uint64_t x0)]. *)
Definition make (x0 : Z) : t := x0.

(** [splitmix64::operator()]: the result and the updated [x]. *)
Definition next (x : t) : Z * t :=
  let x := u64 (x + 0x9e3779b97f4a7c15) in
  let z := x in
  let z := u64 (Z.lxor z (Z.shiftr z 30) * 0xbf58476d1ce4e5b9) in
  let z := u64 (Z.lxor z (Z.shiftr z 27) * 0x94d049bb133111eb) in
  (Z.lxor z (Z.shiftr z 31), x).

Definition min : Z := 0.
Definition max : Z := UINT64_MAX.

End splitmix64.

(** ** The xoshiro256 state and the two call operators *)

(** The member [uint64_t s[4]]. *)
Record xoshiro256 : Type := State { s0 : Z; s1 : Z; s2 : Z; s3 : Z }.

Definition valid (s : xoshiro256) : Prop :=
  is_u64 (s0 s) /\ is_u64 (s1 s) /\ is_u64 (s2 s) /\ is_u64 (s3 s).

Definition zero_state : xoshiro256 := State 0 0 0 0.

(** [xoshiro256ss::xoshiro256ss(s0, s1, s2, s3)]. *)
Definition seeded (a b c d : Z) : xoshiro256 := State a b c d.

(** [xoshiro256ss::xoshiro256ss()], with the clock reading as an argument;
    the reading is converted to [uint64_t]. *)
Definition time_seeded (now : Z) : xoshiro256 :=
  let seeder := splitmix64.make (u64 now) in
  let '(a, seeder) := splitmix64.next seeder in
  let '(b, seeder) := splitmix64.next seeder in
  let '(c, seeder) := splitmix64.next seeder in
  let '(d, _) := splitmix64.next seeder in
  State a b c d.

(** [xoshiro256ss::operator()]. *)
Definition ss_call (s : xoshiro256) : Z * xoshiro256 :=
  let '(State a b c d) := s in
  let result := u64 (rotl (u64 (b * 5)) 7 * 9) in
  let t := u64 (Z.shiftl b 17) in
  let c := Z.lxor c a in
  let d := Z.lxor d b in
  let b := Z.lxor b c in
  let a := Z.lxor a d in
  let c := Z.lxor c t in
  let d := rotl d 45 in
  (result, State a b c d).

(** [xoshiro256p::operator()]. *)
Definition p_call (s : xoshiro256) : Z * xoshiro256 :=
  let '(State a b c d) := s in
  let result := u64 (a + d) in
  let t := u64 (Z.shiftl b 17) in
  let c := Z.lxor c a in
  let d := Z.lxor d b in
  let b := Z.lxor b c in
  let a := Z.lxor a d in
  let c := Z.lxor c t in
  let d := rotl d 45 in
  (result, State a b c d).

(** The dynamic class of a generator object: [operator()] is virtual, and
    [xoshiro256p] overrides it. *)
Inductive generator : Type := Xoshiro256ss | Xoshiro256p.

(** The virtual call of [operator()] on the object itself. *)
Definition call (g : generator) (s : xoshiro256) : Z * xoshiro256 :=
  match g with
  | Xoshiro256ss => ss_call s
  | Xoshiro256p => p_call s
  end.

(** The first [n] results of consecutive calls, and the state they leave. *)
Fixpoint outputs (g : generator) (n : nat) (s : xoshiro256)
  : list Z * xoshiro256 :=
  match n with
  | O => ([], s)
  | S n' =>
      let '(r, s') := call g s in
      let '(rs, s'') := outputs g n' s' in
      (r :: rs, s'')
  end.

(** ** The transition of section 4.2, as the specification words it *)

Definition rotate_left (x k : Z) : Z :=
  Z.lor (Z.shiftl x k mod 2 ^ 64) (Z.shiftr x (64 - k)).

Definition transition (s : xoshiro256) : xoshiro256 :=
  let t := Z.shiftl (s1 s) 17 mod 2 ^ 64 in
  let s2_1 := Z.lxor (s2 s) (s0 s) in
  let s3_1 := Z.lxor (s3 s) (s1 s) in
  let s1_1 := Z.lxor (s1 s) s2_1 in
  let s0_1 := Z.lxor (s0 s) s3_1 in
  let s2_2 := Z.lxor s2_1 t in
  let s3_2 := rotate_left s3_1 45 in
  State s0_1 s1_1 s2_2 s3_2.

(** ** jump and long_jump *)

Definition JUMP : list Z :=
  [0x180ec6d33cfd0aba; 0xd5a61266f0c9392c;
   0xa9582618e03fc9aa; 0x39abdc4529b1661c].

Definition LONG_JUMP : list Z :=
  [0x76e15d3efefdcbbf; 0xc5004e441c522fb3;
   0x77710069854ee241; 0x39109bb02acbe635].

(** [xoshiro256ss::jump].  The loop state is the pair of the locals
    [s0 .. s3] and the member [s]; the member is assigned the locals at the
    end.  The call in the loop body is the virtual one. *)
Definition jump (g : generator) (s : xoshiro256) : xoshiro256 :=
  fst (fold_left
         (fun st i =>
            fold_left
              (fun st b =>
                 let '(acc, s) := st in
                 let acc :=
                   if negb (Z.land (nth i JUMP 0)
                                   (u64 (Z.shiftl 1 (Z.of_nat b))) =? 0)
                   then State (Z.lxor (s0 acc) (s0 s)) (Z.lxor (s1 acc) (s1 s))
                              (Z.lxor (s2 acc) (s2 s)) (Z.lxor (s3 acc) (s3 s))
                   else acc in
                 (acc, snd (call g s)))
              (seq 0 64) st)
         (seq 0 (List.length JUMP)) (zero_state, s)).

(** [xoshiro256ss::long_jump]. *)
Definition long_jump (g : generator) (s : xoshiro256) : xoshiro256 :=
  fst (fold_left
         (fun st i =>
            fold_left
              (fun st b =>
                 let '(acc, s) := st in
                 let acc :=
                   if negb (Z.land (nth i LONG_JUMP 0)
                                   (u64 (Z.shiftl 1 (Z.of_nat b))) =? 0)
                   then State (Z.lxor (s0 acc) (s0 s)) (Z.lxor (s1 acc) (s1 s))
                              (Z.lxor (s2 acc) (s2 s)) (Z.lxor (s3 acc) (s3 s))
                   else acc in
                 (acc, snd (call g s)))
              (seq 0 64) st)
         (seq 0 (List.length LONG_JUMP)) (zero_state, s)).

(** The body of the inner loops, for the constant [w]. *)
Definition jump_body (g : generator) (w : Z)
  (st : xoshiro256 * xoshiro256) (b : nat) : xoshiro256 * xoshiro256 :=
  let '(acc, s) := st in
  let acc :=
    if negb (Z.land w (u64 (Z.shiftl 1 (Z.of_nat b))) =? 0)
    then State (Z.lxor (s0 acc) (s0 s)) (Z.lxor (s1 acc) (s1 s))
               (Z.lxor (s2 acc) (s2 s)) (Z.lxor (s3 acc) (s3 s))
    else acc in
  (acc, snd (call g s)).

(** The two loops above, for any table in place of the constants. *)
Definition jump_with (tbl : list Z) (g : generator) (s : xoshiro256)
  : xoshiro256 :=
  fst (fold_left
         (fun st i => fold_left (jump_body g (nth i tbl 0)) (seq 0 64) st)
         (seq 0 (List.length tbl)) (zero_state, s)).

(** The operations that mutate a generator object, and a run of them. *)
Inductive operation : Type := Call | Jump | LongJump.

Definition perform (g : generator) (s : xoshiro256) (op : operation)
  : xoshiro256 :=
  match op with
  | Call => snd (call g s)
  | Jump => jump g s
  | LongJump => long_jump g s
  end.

Definition run (g : generator) (ops : list operation) (s : xoshiro256)
  : xoshiro256 :=
  fold_left (perform g) ops s.

(** ** The partitioning algorithm of section 4.5, as the specification
       words it *)

Definition xor_state (a s : xoshiro256) : xoshiro256 :=
  State (Z.lxor (s0 a) (s0 s)) (Z.lxor (s1 a) (s1 s))
        (Z.lxor (s2 a) (s2 s)) (Z.lxor (s3 a) (s3 s)).

(** The bits [0 .. n-1] of [z], least significant first. *)
Definition bits_of (n : nat) (z : Z) : list bool :=
  map (fun i => Z.testbit z (Z.of_nat i)) (seq 0 n).

(** The 256 bits of a table, from the first constant's least significant
    bit. *)
Definition table_bits (tbl : list Z) : list bool :=
  flat_map (bits_of 64) tbl.

(** The loop state is the pair of the accumulator and the CoreState. *)
Fixpoint partition_loop (g : generator) (bits : list bool)
  (st : xoshiro256 * xoshiro256) : xoshiro256 * xoshiro256 :=
  match bits with
  | [] => st
  | b :: bits' =>
      let '(acc, s) := st in
      partition_loop g bits'
        (if b then xor_state acc s else acc, snd (call g s))
  end.

(** After the last bit the CoreState is replaced by the accumulator. *)
Definition stream_partition (tbl : list Z) (g : generator) (s : xoshiro256)
  : xoshiro256 :=
  fst (partition_loop g (table_bits tbl) (zero_state, s)).

(** The state after [n] consecutive raw output calls. *)
Definition calls (g : generator) (n : N) (s : xoshiro256) : xoshiro256 :=
  N.iter n (fun s => snd (call g s)) s.

(** ** Polynomials over GF(2) acting on states

    The transition is linear over GF(2), so a polynomial in it acts on the
    states; the jump loop evaluates the polynomial whose coefficients are the
    bits of the table.  A polynomial is the list of its coefficients, the
    constant one first. *)

Definition poly : Type := list bool.

Definition step (s : xoshiro256) : xoshiro256 := snd (ss_call s).

Fixpoint poly_apply (q : poly) (s : xoshiro256) : xoshiro256 :=
  match q with
  | [] => zero_state
  | b :: q' =>
      xor_state (if b then s else zero_state) (poly_apply q' (step s))
  end.

Fixpoint padd (p q : poly) : poly :=
  match p, q with
  | [], _ => q
  | _, [] => p
  | a :: p', b :: q' => xorb a b :: padd p' q'
  end.

Fixpoint pmul (p q : poly) : poly :=
  match p with
  | [] => []
  | a :: p' => padd (if a then q else []) (false :: pmul p' q)
  end.

(** Drops the zero coefficients at the high end. *)
Fixpoint strip (p : poly) : poly :=
  match p with
  | [] => []
  | a :: p' =>
      match a, strip p' with
      | false, [] => []
      | _, r => a :: r
      end
  end.

(** The characteristic polynomial of the transition. *)
Definition CHARPOLY : poly :=
  bits_of 257
    0x10003c03c3f3ecb1904b4edcf26259f850280002bcefd1a5e9d116f2bb0f0f001.

(** Horner reduction modulo [CHARPOLY]. *)
Fixpoint reduce (p : poly) : poly :=
  match p with
  | [] => []
  | a :: p' =>
      let r := a :: reduce p' in
      strip (if nth 256 r false then padd r CHARPOLY else r)
  end.

Definition psquare (q : poly) : poly := reduce (pmul q q).

(** [X ^ (2 ^ k)] modulo [CHARPOLY]. *)
Definition x_pow2 (k : nat) : poly := Nat.iter k psquare [false; true].

(** The state whose word [j] is [z], the other words being zero. *)
Definition put (j : nat) (z : Z) : xoshiro256 :=
  match j with
  | 0%nat => State z 0 0 0
  | 1%nat => State 0 z 0 0
  | 2%nat => State 0 0 z 0
  | _ => State 0 0 0 z
  end.

Definition state_eqb (a b : xoshiro256) : bool :=
  (s0 a =? s0 b) && (s1 a =? s1 b) && (s2 a =? s2 b) && (s3 a =? s3 b).

(** Whether [CHARPOLY] sends the unit state of bit [n] of word [j] to
    zero. *)
Definition unit_check (j n : nat) : bool :=
  state_eqb (poly_apply CHARPOLY (put j (2 ^ Z.of_nat n))) zero_state.

(** A state of four 64-bit words that is not all zero. *)
Definition live (s : xoshiro256) : Prop := valid s /\ s <> zero_state.

(** ** uniform *)

(** The conversion of a [uint64_t] to [double]: to nearest, ties to even. *)
Definition double_of_u64 (n : Z) : float :=
  SF2Prim (binary_normalize prec emax n 0 false).

(** The rejection loop of [xoshiro256ss::uniform]: the accepted draw and the
    state it leaves, if one is accepted within [fuel] calls. *)
Fixpoint uniform_draw (fuel : nat) (g : generator) (s : xoshiro256)
  : option (Z * xoshiro256) :=
  match fuel with
  | O => None
  | S fuel' =>
      let '(n, s') := call g s in
      if (n =? 0) || (n =? UINT64_MAX) then uniform_draw fuel' g s'
      else Some (n, s')
  end.

(** [low + (high-low)*n/((double)max)] in [double] arithmetic. *)
Definition scale (low high : float) (n : Z) : float :=
  (low + (high - low) * double_of_u64 n / double_of_u64 UINT64_MAX)%float.

(** [xoshiro256ss::uniform]. *)
Definition uniform (fuel : nat) (g : generator) (low high : float)
  (s : xoshiro256) : option (float * xoshiro256) :=
  match uniform_draw fuel g s with
  | Some (n, s') => Some (scale low high n, s')
  | None => None
  end.

(** ** UI64T2String *)

(** What [ostrm << v] writes for an unsigned value: its decimal digits. *)
Definition ostream_u64 (v : Z) : string :=
  DecimalString.NilZero.string_of_uint (N.to_uint (Z.to_N v)).

Fixpoint UI64T2String_loop (n : nat) (copy : Z) (result : string) : string :=
  match n with
  | O => result
  | S n' =>
      let ostrm := ostream_u64 (Z.land copy 1) in
      let result := (ostrm ++ result)%string in
      let copy := Z.shiftr copy 1 in
      UI64T2String_loop n' copy result
  end.

Definition UI64T2String (input : Z) : string :=
  UI64T2String_loop 64 input EmptyString.

(** Reading a string of binary digits, most significant first. *)
Definition parse_binary (s : string) : Z :=
  fold_left (fun acc c => 2 * acc + (if Ascii.eqb c "1" then 1 else 0))
    (list_ascii_of_string s) 0.

(** The character of a binary digit. *)
Definition digit_char (b : bool) : ascii := if b then "1"%char else "0"%char.

(** The [n] low bits of [x] as digits, the most significant first. *)
Fixpoint bit_string (n : nat) (x : Z) : string :=
  match n with
  | O => EmptyString
  | S n' =>
      (bit_string n' (Z.shiftr x 1)
       ++ String (digit_char (Z.testbit x 0)) EmptyString)%string
  end.

(** ** The declared ranges and the inverses of the output functions *)

(** [xoshiro256ss::min] and [xoshiro256ss::max], inherited by
    [xoshiro256p]. *)
Definition xoshiro256_min : Z := 0.
Definition xoshiro256_max : Z := UINT64_MAX.

(** The inverse of the scrambler [rotl(s1 * 5, 7) * 9]: the products by the
    inverses of 9 and 5 modulo 2^64 around the rotation by 64 - 7. *)
Definition unscramble (v : Z) : Z :=
  u64 (rotl (u64 (v * 0x8e38e38e38e38e39)) 57 * 0xcccccccccccccccd).

(** The mix that [splitmix64::operator()] applies to the incremented [x]. *)
Definition splitmix64_mix (z : Z) : Z :=
  let z := u64 (Z.lxor z (Z.shiftr z 30) * 0xbf58476d1ce4e5b9) in
  let z := u64 (Z.lxor z (Z.shiftr z 27) * 0x94d049bb133111eb) in
  Z.lxor z (Z.shiftr z 31).

(** The member [x] of a splitmix64 object after [n] calls, and the result of
    the call that follows them. *)
Definition splitmix64_skip (n : N) (x : Z) : Z :=
  N.iter n (fun x => snd (splitmix64.next x)) x.

Definition splitmix64_output (n : N) (x : Z) : Z :=
  fst (splitmix64.next (splitmix64_skip n x)).

(** ** Inverses modulo [CHARPOLY]

    The inverses of [X + 1], of the jump polynomial plus 1, of the long-jump
    polynomial plus 1, and of the sum of the two, each with its product
    reducing to 1. *)

Definition INV_CALL : poly :=
  bits_of 256
    0xfffebfebeaea46f70393a4bae21c8a830180001945ab09ca74f0dae690505000.

Definition INV_JUMP : poly :=
  bits_of 256
    0x2676a01eb94590ab36de0ce5ae64c989bcf81f57c1700052a4c3118442a86a29.

Definition INV_LONG_JUMP : poly :=
  bits_of 256
    0x3e99637023d856956f35d56618b655ead3984286e551fe6053a8c9e5fb26cf2d.

Definition INV_JUMP_LONG_JUMP : poly :=
  bits_of 256
    0xc67b32b888711b1deca79778aaa6347347634ed5eae8a8db21554300e98b050.

(** Equality of two finite binary floats of the specification. *)
Definition finite_eqb (a b : spec_float) : bool :=
  match a, b with
  | S754_finite sa ma ea, S754_finite sb mb eb =>
      Bool.eqb sa sb && Pos.eqb ma mb && Z.eqb ea eb
  | _, _ => false
  end.

(** * Theorems *)

(** Published vectors of the reference generators. *)
Example splitmix64_seed0 :
  fst (splitmix64.next (splitmix64.make 0)) = 0xe220a8397b1dcdaf.
Proof. vm_compute. reflexivity. Qed.

Example ss_vector :
  fst (outputs Xoshiro256ss 4 (seeded 1 2 3 4))
  = [11520; 0; 1509978240; 1215971899390074240].
Proof. vm_compute. reflexivity. Qed.

Example p_vector :
  fst (outputs Xoshiro256p 4 (seeded 1 2 3 4))
  = [5; 211106232532999; 211106635186183; 9223759065350669058].
Proof. vm_compute. reflexivity. Qed.

(** ** Machine words *)

Lemma u64_spec (x : Z) : u64 x = x mod 2 ^ 64.
Proof.
  unfold u64. change UINT64_MAX with (Z.ones 64).
  apply Z.land_ones. lia.
Qed.

Lemma u64_range (x : Z) : is_u64 (u64 x).
Proof.
  rewrite u64_spec. unfold is_u64. apply Z.mod_pos_bound. lia.
Qed.

Lemma u64_small (x : Z) : is_u64 x -> u64 x = x.
Proof.
  intros H. rewrite u64_spec. apply Z.mod_small. exact H.
Qed.

Lemma testbit_u64 (x n : Z) :
  Z.testbit (u64 x) n = (n <? 64) && Z.testbit x n.
Proof.
  rewrite u64_spec. destruct (Z.ltb_spec n 0) as [Hn | Hn].
  - rewrite !Z.testbit_neg_r by lia. btauto.
  - apply Z.testbit_mod_pow2. lia.
Qed.

Lemma testbit_high (x n : Z) : is_u64 x -> 64 <= n -> Z.testbit x n = false.
Proof.
  intros Hx Hn. rewrite <- (u64_small x Hx), testbit_u64.
  destruct (Z.ltb_spec n 64); [lia | reflexivity].
Qed.

(** Equality of words, bit by bit: the goal becomes an equation between
    booleans in which the bits out of range have been erased. *)
Ltac word_bits :=
  repeat first
    [ rewrite testbit_u64
    | rewrite Z.lxor_spec
    | rewrite Z.lor_spec
    | rewrite Z.land_spec
    | rewrite Z.shiftl_spec by lia
    | rewrite Z.shiftr_spec by lia
    | rewrite Z.testbit_0_l ].

Ltac by_bits n Hn :=
  apply Z.bits_inj'; intros n Hn; word_bits.

Lemma is_u64_lxor (x y : Z) : is_u64 x -> is_u64 y -> is_u64 (Z.lxor x y).
Proof.
  intros Hx Hy. rewrite <- (u64_small x Hx), <- (u64_small y Hy).
  replace (Z.lxor (u64 x) (u64 y)) with (u64 (Z.lxor x y)).
  - apply u64_range.
  - by_bits n Hn. btauto.
Qed.

Lemma is_u64_shiftr (x k : Z) : is_u64 x -> 0 <= k -> is_u64 (Z.shiftr x k).
Proof.
  intros Hx Hk. replace (Z.shiftr x k) with (u64 (Z.shiftr x k)).
  - apply u64_range.
  - by_bits n Hn. destruct (Z.ltb_spec n 64); [reflexivity | ].
    rewrite (testbit_high x) by (auto; lia). reflexivity.
Qed.

Lemma is_u64_rotl (x k : Z) : is_u64 x -> 0 <= k <= 64 -> is_u64 (rotl x k).
Proof.
  intros Hx Hk. unfold rotl.
  replace (Z.lor (u64 (Z.shiftl x k)) (Z.shiftr x (64 - k)))
    with (u64 (Z.lor (Z.shiftl x k) (Z.shiftr x (64 - k)))).
  - apply u64_range.
  - by_bits n Hn. destruct (Z.ltb_spec n 64); [reflexivity | ].
    rewrite (testbit_high x (n + (64 - k))) by (auto; lia). reflexivity.
Qed.

Lemma rotl_lxor (x y k : Z) :
  is_u64 x -> is_u64 y -> 0 <= k <= 64 ->
  rotl (Z.lxor x y) k = Z.lxor (rotl x k) (rotl y k).
Proof.
  intros Hx Hy Hk. unfold rotl. by_bits n Hn.
  destruct (Z.ltb_spec n k).
  - rewrite !(Z.testbit_neg_r _ (n - k)) by lia. btauto.
  - rewrite (testbit_high x (n + (64 - k))), (testbit_high y (n + (64 - k)))
      by (auto; lia).
    btauto.
Qed.

Lemma rotate_left_rotl (x k : Z) : rotate_left x k = rotl x k.
Proof.
  unfold rotate_left, rotl. rewrite u64_spec. reflexivity.
Qed.

(** ** The call operators *)

Lemma ss_call_state (s : xoshiro256) : snd (ss_call s) = transition s.
Proof.
  destruct s as [a b c d]. unfold transition, ss_call.
  cbn [snd s0 s1 s2 s3]. rewrite rotate_left_rotl, u64_spec. reflexivity.
Qed.

Lemma p_call_state (s : xoshiro256) : snd (p_call s) = transition s.
Proof.
  destruct s as [a b c d]. unfold transition, p_call.
  cbn [snd s0 s1 s2 s3]. rewrite rotate_left_rotl, u64_spec. reflexivity.
Qed.

Lemma call_state (g : generator) (s : xoshiro256) : snd (call g s) = step s.
Proof.
  unfold step. destruct g; cbn [call].
  - reflexivity.
  - rewrite p_call_state, ss_call_state. reflexivity.
Qed.

(** C1.  A raw output call of either class leaves the state that the
    transition of section 4.2 computes from the state before the call:
    [t = s1 << 17], [s2 ^= s0], [s3 ^= s1], [s1 ^= s2], [s0 ^= s3],
    [s2 ^= t], [s3 = rotate_left(s3, 45)]; hence the two classes leave equal
    states when started from equal states. *)
Theorem call_applies_transition (s : xoshiro256) :
  snd (ss_call s) = transition s /\
  snd (p_call s) = transition s /\
  (forall g : generator, snd (call g s) = transition s) /\
  snd (ss_call s) = snd (p_call s).
Proof.
  pose proof (ss_call_state s) as Hss.
  pose proof (p_call_state s) as Hp.
  repeat split; try assumption.
  - intros [ | ]; assumption.
  - congruence.
Qed.

(** C2.  The call of xoshiro256ss returns [rotate_left(s1 * 5, 7) * 9] of the
    state before the update, both products modulo 2^64, and leaves the
    transition of that state. *)
Theorem ss_call_spec (s : xoshiro256) :
  ss_call s
  = ((rotate_left ((s1 s * 5) mod 2 ^ 64) 7 * 9) mod 2 ^ 64, transition s).
Proof.
  rewrite <- ss_call_state. destruct s as [a b c d]. unfold ss_call.
  cbn [snd s0 s1 s2 s3]. rewrite rotate_left_rotl, <- !u64_spec. reflexivity.
Qed.

(** C3.  The call of xoshiro256p returns [s0 + s3] modulo 2^64 of the state
    before the update, and leaves the transition of that state, the one the
    call of xoshiro256ss leaves. *)
Theorem p_call_spec (s : xoshiro256) :
  p_call s = ((s0 s + s3 s) mod 2 ^ 64, transition s) /\
  snd (p_call s) = snd (ss_call s).
Proof.
  split.
  - rewrite <- p_call_state. destruct s as [a b c d]. unfold p_call.
    cbn [snd s0 s1 s2 s3]. rewrite <- u64_spec. reflexivity.
  - rewrite p_call_state, ss_call_state. reflexivity.
Qed.

(** C4.  A call of splitmix64 first adds 0x9e3779b97f4a7c15 to [x], then
    returns the mix of the new [x]: xor with the shift by 30, product with
    0xbf58476d1ce4e5b9, xor with the shift by 27, product with
    0x94d049bb133111eb, xor with the shift by 31, all modulo 2^64.  It is
    defined on every [x], zero included, and both the result and the new
    state are 64-bit words. *)
Theorem splitmix64_next_spec (x : Z) :
  let x' := (x + 0x9e3779b97f4a7c15) mod 2 ^ 64 in
  let z1 := (Z.lxor x' (Z.shiftr x' 30) * 0xbf58476d1ce4e5b9) mod 2 ^ 64 in
  let z2 := (Z.lxor z1 (Z.shiftr z1 27) * 0x94d049bb133111eb) mod 2 ^ 64 in
  splitmix64.next x = (Z.lxor z2 (Z.shiftr z2 31), x') /\
  is_u64 (fst (splitmix64.next x)) /\
  is_u64 (snd (splitmix64.next x)).
Proof.
  cbv zeta. unfold splitmix64.next. cbn [fst snd].
  rewrite <- !u64_spec. repeat split.
  - apply is_u64_lxor; [ | apply is_u64_shiftr; [ | lia] ]; apply u64_range.
  - apply is_u64_lxor; [ | apply is_u64_shiftr; [ | lia] ]; apply u64_range.
  - apply u64_range.
  - apply u64_range.
Qed.

(** ** States *)

Lemma valid_zero : valid zero_state.
Proof.
  unfold valid, is_u64. cbn. lia.
Qed.

Lemma valid_xor (a b : xoshiro256) :
  valid a -> valid b -> valid (xor_state a b).
Proof.
  intros (Ha0 & Ha1 & Ha2 & Ha3) (Hb0 & Hb1 & Hb2 & Hb3).
  unfold valid, xor_state. cbn [s0 s1 s2 s3]. auto using is_u64_lxor.
Qed.

Lemma valid_step (s : xoshiro256) : valid s -> valid (step s).
Proof.
  destruct s as [a b c d]. intros (Ha & Hb & Hc & Hd).
  cbn [s0 s1 s2 s3] in *.
  unfold valid, step, ss_call. cbn [snd s0 s1 s2 s3].
  repeat split;
    repeat first
      [ apply is_u64_lxor | apply is_u64_rotl | apply u64_range
      | assumption | lia ].
Qed.

Lemma step_zero : step zero_state = zero_state.
Proof. reflexivity. Qed.

Lemma xor_state_zero_l (s : xoshiro256) : xor_state zero_state s = s.
Proof.
  destruct s. unfold xor_state, zero_state. cbn [s0 s1 s2 s3].
  rewrite !Z.lxor_0_l. reflexivity.
Qed.

Lemma xor_state_zero_r (s : xoshiro256) : xor_state s zero_state = s.
Proof.
  destruct s. unfold xor_state, zero_state. cbn [s0 s1 s2 s3].
  rewrite !Z.lxor_0_r. reflexivity.
Qed.

Lemma xor_state_assoc (a b c : xoshiro256) :
  xor_state (xor_state a b) c = xor_state a (xor_state b c).
Proof.
  unfold xor_state. cbn [s0 s1 s2 s3]. rewrite !Z.lxor_assoc. reflexivity.
Qed.

Lemma xor_state_comm (a b : xoshiro256) : xor_state a b = xor_state b a.
Proof.
  unfold xor_state. f_equal; apply Z.lxor_comm.
Qed.

Lemma xor_state_nilpotent (a : xoshiro256) : xor_state a a = zero_state.
Proof.
  unfold xor_state. rewrite !Z.lxor_nilpotent. reflexivity.
Qed.

(** The transition is linear over GF(2). *)
Lemma step_xor (a b : xoshiro256) :
  valid a -> valid b -> step (xor_state a b) = xor_state (step a) (step b).
Proof.
  destruct a as [a0 a1 a2 a3], b as [b0 b1 b2 b3].
  intros (Ha0 & Ha1 & Ha2 & Ha3) (Hb0 & Hb1 & Hb2 & Hb3).
  cbn [s0 s1 s2 s3] in *.
  unfold step, ss_call, xor_state. cbn [snd s0 s1 s2 s3]. f_equal.
  - by_bits n Hn. btauto.
  - by_bits n Hn. btauto.
  - by_bits n Hn. btauto.
  - rewrite <- rotl_lxor by (auto using is_u64_lxor; lia).
    f_equal. by_bits n Hn. btauto.
Qed.

Lemma call_zero (g : generator) : call g zero_state = (0, zero_state).
Proof.
  destruct g; reflexivity.
Qed.

(** C7.  The all-zero state is a fixed point: a call of either class returns
    0 and leaves the state all-zero, so every output of the stream is 0. *)
Theorem zero_state_fixed (g : generator) :
  call g zero_state = (0, zero_state) /\
  forall n : nat, outputs g n zero_state = (repeat 0 n, zero_state).
Proof.
  split; [apply call_zero | ].
  induction n as [ | n IH]; [reflexivity | ].
  cbn [outputs repeat]. rewrite call_zero, IH. reflexivity.
Qed.

(** ** The jump loops *)

Lemma shiftl_1_u64 (b : Z) : 0 <= b < 64 -> u64 (Z.shiftl 1 b) = 2 ^ b.
Proof.
  intros Hb. rewrite Z.shiftl_1_l. apply u64_small. unfold is_u64. split.
  - apply Z.pow_nonneg. lia.
  - apply Z.pow_lt_mono_r; lia.
Qed.

(** The test [w & UINT64_C(1) << b] of the loops reads bit [b] of [w]. *)
Lemma land_bit_test (w b : Z) :
  0 <= b < 64 ->
  negb (Z.land w (u64 (Z.shiftl 1 b)) =? 0) = Z.testbit w b.
Proof.
  intros Hb. rewrite shiftl_1_u64 by exact Hb.
  destruct (Z.testbit w b) eqn:Hw.
  - destruct (Z.eqb_spec (Z.land w (2 ^ b)) 0) as [H0 | H0]; [ | reflexivity].
    assert (Hbit : Z.testbit (Z.land w (2 ^ b)) b = true).
    { rewrite Z.land_spec, Hw, Z.pow2_bits_true by lia. reflexivity. }
    rewrite H0, Z.testbit_0_l in Hbit. discriminate.
  - replace (Z.land w (2 ^ b)) with 0; [reflexivity | ].
    apply Z.bits_inj'. intros n Hn.
    rewrite Z.testbit_0_l, Z.land_spec, Z.pow2_bits_eqb by lia.
    destruct (Z.eqb_spec b n) as [-> | ]; [rewrite Hw | ]; btauto.
Qed.

Lemma partition_loop_app (g : generator) (l1 l2 : list bool) :
  forall st,
    partition_loop g (l1 ++ l2) st
    = partition_loop g l2 (partition_loop g l1 st).
Proof.
  induction l1 as [ | b l1 IH]; intros [acc s]; [reflexivity | ].
  cbn [app partition_loop]. apply IH.
Qed.

Section JumpLoop.

Variable g : generator.
Variable w : Z.

Lemma inner_loop_bits (l : list nat) :
  Forall (fun b => (b < 64)%nat) l ->
  forall st,
    fold_left (jump_body g w) l st
    = partition_loop g (map (fun i => Z.testbit w (Z.of_nat i)) l) st.
Proof.
  induction 1 as [ | b l Hb Hl IH]; intros [acc s]; [reflexivity | ].
  cbn [fold_left map partition_loop]. rewrite <- IH. f_equal.
  unfold jump_body. rewrite land_bit_test by lia. reflexivity.
Qed.

Lemma inner_loop_word (st : xoshiro256 * xoshiro256) :
  fold_left (jump_body g w) (seq 0 64) st = partition_loop g (bits_of 64 w) st.
Proof.
  apply inner_loop_bits. apply Forall_forall. intros b Hb.
  apply in_seq in Hb. lia.
Qed.

End JumpLoop.

Lemma jump_with_loop (tbl : list Z) (g : generator) (s : xoshiro256) :
  jump_with tbl g s
  = fst (partition_loop g
           (flat_map (fun i => bits_of 64 (nth i tbl 0))
              (seq 0 (List.length tbl)))
           (zero_state, s)).
Proof.
  unfold jump_with. f_equal.
  generalize (zero_state, s). generalize (seq 0 (List.length tbl)).
  induction l as [ | i l IH]; intros st; [reflexivity | ].
  cbn [fold_left flat_map]. rewrite partition_loop_app, <- IH.
  f_equal. apply inner_loop_word.
Qed.

Lemma flat_map_nth {A : Type} (f : Z -> list A) (tbl : list Z) :
  flat_map (fun i => f (nth i tbl 0)) (seq 0 (List.length tbl))
  = flat_map f tbl.
Proof.
  induction tbl as [ | w tbl IH]; [reflexivity | ].
  cbn [List.length seq flat_map nth]. f_equal.
  rewrite <- seq_shift, <- IH. generalize (seq 0 (List.length tbl)).
  induction l as [ | i l IHl]; [reflexivity | ].
  cbn [map flat_map nth]. rewrite IHl. reflexivity.
Qed.

Lemma jump_with_partition (tbl : list Z) (g : generator) (s : xoshiro256) :
  jump_with tbl g s = stream_partition tbl g s.
Proof.
  rewrite jump_with_loop, flat_map_nth. reflexivity.
Qed.

Lemma jump_unfold (g : generator) (s : xoshiro256) :
  jump g s = jump_with JUMP g s.
Proof. unfold jump, jump_with, jump_body. reflexivity. Qed.

Lemma long_jump_unfold (g : generator) (s : xoshiro256) :
  long_jump g s = jump_with LONG_JUMP g s.
Proof. unfold long_jump, jump_with, jump_body. reflexivity. Qed.

Lemma jump_partition (g : generator) (s : xoshiro256) :
  jump g s = stream_partition JUMP g s.
Proof.
  rewrite jump_unfold. apply jump_with_partition.
Qed.

Lemma long_jump_partition (g : generator) (s : xoshiro256) :
  long_jump g s = stream_partition LONG_JUMP g s.
Proof.
  rewrite long_jump_unfold. apply jump_with_partition.
Qed.

(** C6.  jump and long_jump run one algorithm on their tables: the
    accumulator starts at zero; for each of the 256 bits of the four
    constants, from the least significant bit of the first constant, the
    current state is xored into the accumulator when the bit is set and the
    state advances by one call whatever the bit; at the end the state is the
    accumulator.  They differ in the table only. *)
Theorem jump_algorithm (g : generator) (s : xoshiro256) :
  jump g s = stream_partition JUMP g s /\
  long_jump g s = stream_partition LONG_JUMP g s /\
  List.length (table_bits JUMP) = 256%nat /\
  List.length (table_bits LONG_JUMP) = 256%nat.
Proof.
  split; [apply jump_partition | ].
  split; [apply long_jump_partition | ].
  split; reflexivity.
Qed.

(** ** Polynomials in the transition *)

Lemma xor_state_interchange (a b c d : xoshiro256) :
  xor_state (xor_state a b) (xor_state c d)
  = xor_state (xor_state a c) (xor_state b d).
Proof.
  rewrite !xor_state_assoc. f_equal.
  rewrite <- !xor_state_assoc. f_equal. apply xor_state_comm.
Qed.

Lemma valid_pick (c : bool) (s : xoshiro256) :
  valid s -> valid (if c then s else zero_state).
Proof.
  destruct c; auto using valid_zero.
Qed.

Lemma step_pick (c : bool) (s : xoshiro256) :
  step (if c then s else zero_state) = if c then step s else zero_state.
Proof.
  destruct c; [reflexivity | apply step_zero].
Qed.

Lemma poly_apply_valid (q : poly) :
  forall s, valid s -> valid (poly_apply q s).
Proof.
  induction q as [ | c q IH]; intros s Hs; cbn [poly_apply].
  - apply valid_zero.
  - apply valid_xor; [apply valid_pick; exact Hs | ].
    apply IH, valid_step, Hs.
Qed.

Lemma poly_apply_xor (q : poly) :
  forall a b, valid a -> valid b ->
    poly_apply q (xor_state a b)
    = xor_state (poly_apply q a) (poly_apply q b).
Proof.
  induction q as [ | c q IH]; intros a b Ha Hb; cbn [poly_apply].
  - symmetry. apply xor_state_zero_l.
  - rewrite step_xor, IH by auto using valid_step.
    rewrite xor_state_interchange. f_equal.
    destruct c; [reflexivity | ]. symmetry. apply xor_state_zero_l.
Qed.

Lemma poly_apply_step (q : poly) :
  forall s, valid s -> poly_apply q (step s) = step (poly_apply q s).
Proof.
  induction q as [ | c q IH]; intros s Hs; cbn [poly_apply].
  - symmetry. apply step_zero.
  - rewrite step_xor
      by auto using valid_pick, poly_apply_valid, valid_step.
    rewrite step_pick, IH by auto using valid_step. reflexivity.
Qed.

Lemma poly_apply_padd (p : poly) :
  forall q s,
    poly_apply (padd p q) s
    = xor_state (poly_apply p s) (poly_apply q s).
Proof.
  induction p as [ | a p IH]; intros [ | b q] s; cbn [padd poly_apply].
  - symmetry. apply xor_state_zero_l.
  - symmetry. apply xor_state_zero_l.
  - symmetry. apply xor_state_zero_r.
  - rewrite IH, xor_state_interchange. f_equal.
    destruct a, b; cbn [xorb];
      rewrite ?xor_state_nilpotent, ?xor_state_zero_l, ?xor_state_zero_r;
      reflexivity.
Qed.

Lemma poly_apply_pmul (p : poly) :
  forall q s, valid s ->
    poly_apply (pmul p q) s = poly_apply p (poly_apply q s).
Proof.
  induction p as [ | a p IH]; intros q s Hs; cbn [pmul poly_apply].
  - reflexivity.
  - rewrite poly_apply_padd. cbn [poly_apply].
    rewrite xor_state_zero_l, IH, poly_apply_step by auto using valid_step.
    f_equal. destruct a; reflexivity.
Qed.

Lemma poly_apply_strip (p : poly) :
  forall s, poly_apply (strip p) s = poly_apply p s.
Proof.
  induction p as [ | a p IH]; intros s; [reflexivity | ].
  cbn [strip poly_apply]. rewrite <- IH.
  destruct a, (strip p); cbn [poly_apply];
    rewrite ?xor_state_zero_l; reflexivity.
Qed.

Lemma partition_loop_poly (g : generator) (q : poly) :
  forall acc s,
    fst (partition_loop g q (acc, s)) = xor_state acc (poly_apply q s).
Proof.
  induction q as [ | c q IH]; intros acc s; cbn [partition_loop poly_apply].
  - symmetry. apply xor_state_zero_r.
  - rewrite IH, call_state, <- xor_state_assoc. f_equal.
    destruct c; [reflexivity | ]. symmetry. apply xor_state_zero_r.
Qed.

Lemma stream_partition_poly (tbl : list Z) (g : generator) (s : xoshiro256) :
  stream_partition tbl g s = poly_apply (table_bits tbl) s.
Proof.
  unfold stream_partition. rewrite partition_loop_poly.
  apply xor_state_zero_l.
Qed.

(** A map that is linear over GF(2) and vanishes on the 256 unit states
    vanishes on every state. *)
Section Vanishing.

Variable f : xoshiro256 -> xoshiro256.
Hypothesis f_xor :
  forall a b, valid a -> valid b -> f (xor_state a b) = xor_state (f a) (f b).
Hypothesis f_zero : f zero_state = zero_state.
Hypothesis f_units :
  forall j n, (j < 4)%nat -> (n < 64)%nat ->
    f (put j (2 ^ Z.of_nat n)) = zero_state.

Lemma put_zero (j : nat) : put j 0 = zero_state.
Proof.
  destruct j as [ | [ | [ | j]]]; reflexivity.
Qed.

Lemma put_xor (j : nat) (x y : Z) :
  put j (Z.lxor x y) = xor_state (put j x) (put j y).
Proof.
  destruct j as [ | [ | [ | j]]]; reflexivity.
Qed.

Lemma valid_put (j : nat) (x : Z) : is_u64 x -> valid (put j x).
Proof.
  intros Hx. assert (H0 : is_u64 0) by (unfold is_u64; lia).
  destruct j as [ | [ | [ | j]]]; unfold valid; cbn [put s0 s1 s2 s3]; auto.
Qed.

Lemma small_testbit (z : Z) (n : nat) (m : Z) :
  0 <= z < 2 ^ Z.of_nat n -> Z.of_nat n <= m -> Z.testbit z m = false.
Proof.
  intros Hz Hm. rewrite <- (Z.mod_small z (2 ^ Z.of_nat n)) by exact Hz.
  apply Z.mod_pow2_bits_high. lia.
Qed.

Lemma split_top_bit (z : Z) (n : nat) :
  0 <= z < 2 ^ Z.of_nat (S n) ->
  z = Z.lxor (z mod 2 ^ Z.of_nat n)
             (if Z.testbit z (Z.of_nat n) then 2 ^ Z.of_nat n else 0).
Proof.
  intros Hz. apply Z.bits_inj'. intros m Hm.
  rewrite Z.lxor_spec, Z.testbit_mod_pow2 by lia.
  destruct (Z.ltb_spec m (Z.of_nat n)) as [Hlt | Hge].
  - destruct (Z.testbit z (Z.of_nat n)).
    + rewrite Z.pow2_bits_false by lia. btauto.
    + rewrite Z.testbit_0_l. btauto.
  - destruct (Z.eq_dec m (Z.of_nat n)) as [-> | Hne].
    + destruct (Z.testbit z (Z.of_nat n)).
      * rewrite Z.pow2_bits_true by lia. reflexivity.
      * rewrite Z.testbit_0_l. reflexivity.
    + rewrite (small_testbit z (S n) m) by (auto; lia).
      destruct (Z.testbit z (Z.of_nat n)).
      * rewrite Z.pow2_bits_false by lia. reflexivity.
      * rewrite Z.testbit_0_l. reflexivity.
Qed.

Lemma vanishes_on_word (j : nat) :
  (j < 4)%nat ->
  forall n : nat, (n <= 64)%nat ->
    forall z, 0 <= z < 2 ^ Z.of_nat n -> f (put j z) = zero_state.
Proof.
  intros Hj. induction n as [ | n IH]; intros Hn z Hz.
  - replace z with 0 by (cbn in Hz; lia). rewrite put_zero. exact f_zero.
  - assert (Hp : 0 < 2 ^ Z.of_nat n) by (apply Z.pow_pos_nonneg; lia).
    assert (Hq : 2 ^ Z.of_nat n < 2 ^ 64)
      by (apply Z.pow_lt_mono_r; lia).
    assert (Hlo : 0 <= z mod 2 ^ Z.of_nat n < 2 ^ Z.of_nat n)
      by (apply Z.mod_pos_bound; exact Hp).
    rewrite (split_top_bit z n Hz), put_xor, f_xor.
    + rewrite IH by (auto; lia).
      destruct (Z.testbit z (Z.of_nat n)).
      * rewrite f_units by lia. reflexivity.
      * rewrite put_zero, f_zero. reflexivity.
    + apply valid_put. unfold is_u64. lia.
    + apply valid_put. unfold is_u64.
      destruct (Z.testbit z (Z.of_nat n)); lia.
Qed.

Lemma vanishes_everywhere (s : xoshiro256) : valid s -> f s = zero_state.
Proof.
  destruct s as [a b c d]. intros (Ha & Hb & Hc & Hd).
  cbn [s0 s1 s2 s3] in *.
  assert (Hsplit :
    State a b c d
    = xor_state (put 0 a)
        (xor_state (put 1 b) (xor_state (put 2 c) (put 3 d)))).
  { unfold xor_state, put. cbn [s0 s1 s2 s3].
    rewrite ?Z.lxor_0_l, ?Z.lxor_0_r. reflexivity. }
  rewrite Hsplit, !f_xor by auto using valid_put, valid_xor.
  assert (Hw : forall j z, (j < 4)%nat -> is_u64 z ->
                 f (put j z) = zero_state).
  { intros j z Hj Hz. apply (vanishes_on_word j Hj 64%nat); [lia | exact Hz]. }
  rewrite !Hw by (auto; lia). reflexivity.
Qed.

End Vanishing.

(** ** The characteristic polynomial *)

Lemma state_eqb_eq (a b : xoshiro256) : state_eqb a b = true -> a = b.
Proof.
  destruct a, b. unfold state_eqb. cbn [s0 s1 s2 s3]. intros H.
  apply andb_prop in H as [H H3]. apply andb_prop in H as [H H2].
  apply andb_prop in H as [H0 H1].
  apply Z.eqb_eq in H0, H1, H2, H3. congruence.
Qed.

(** By evaluation: [CHARPOLY] sends each of the 256 unit states to zero. *)
Lemma annihilates_units :
  forallb (fun j => forallb (unit_check j) (seq 0 64)) (seq 0 4) = true.
Proof. vm_compute. reflexivity. Qed.

Lemma forallb_seq (P : nat -> bool) (len i : nat) :
  forallb P (seq 0 len) = true -> (i < len)%nat -> P i = true.
Proof.
  intros H Hi. rewrite forallb_forall in H. apply H, in_seq. lia.
Qed.

Lemma charpoly_units (j n : nat) :
  (j < 4)%nat -> (n < 64)%nat ->
  poly_apply CHARPOLY (put j (2 ^ Z.of_nat n)) = zero_state.
Proof.
  intros Hj Hn. apply state_eqb_eq.
  pose proof (forallb_seq _ 4 j annihilates_units Hj) as H.
  exact (forallb_seq _ 64 n H Hn).
Qed.

Lemma poly_apply_zero (q : poly) : poly_apply q zero_state = zero_state.
Proof.
  induction q as [ | c q IH]; [reflexivity | ].
  cbn [poly_apply]. rewrite step_zero, IH. destruct c; reflexivity.
Qed.

(** The transition is a root of [CHARPOLY]. *)
Lemma charpoly_annihilates (s : xoshiro256) :
  valid s -> poly_apply CHARPOLY s = zero_state.
Proof.
  apply vanishes_everywhere.
  - apply poly_apply_xor.
  - apply poly_apply_zero.
  - apply charpoly_units.
Qed.

Lemma poly_apply_reduce (p : poly) :
  forall s, valid s -> poly_apply (reduce p) s = poly_apply p s.
Proof.
  induction p as [ | a p IH]; intros s Hs; [reflexivity | ].
  cbn [reduce]. rewrite poly_apply_strip.
  destruct (nth 256 (a :: reduce p) false).
  - rewrite poly_apply_padd, charpoly_annihilates, xor_state_zero_r
      by exact Hs.
    cbn [poly_apply]. rewrite IH by auto using valid_step. reflexivity.
  - cbn [poly_apply]. rewrite IH by auto using valid_step. reflexivity.
Qed.

Lemma poly_apply_psquare (q : poly) (s : xoshiro256) :
  valid s -> poly_apply (psquare q) s = poly_apply q (poly_apply q s).
Proof.
  intros Hs. unfold psquare.
  rewrite poly_apply_reduce, poly_apply_pmul by exact Hs. reflexivity.
Qed.

Lemma valid_iter_step (n : N) (s : xoshiro256) :
  valid s -> valid (N.iter n step s).
Proof.
  apply N.iter_invariant. exact valid_step.
Qed.

(** [x_pow2 k] acts as [2 ^ k] transitions. *)
Lemma poly_apply_x_pow2 (k : nat) :
  forall s, valid s ->
    poly_apply (x_pow2 k) s = N.iter (2 ^ N.of_nat k) step s.
Proof.
  induction k as [ | k IH]; intros s Hs.
  - change (x_pow2 0) with [false; true].
    change (N.iter (2 ^ N.of_nat 0) step s) with (step s).
    cbn [poly_apply]. rewrite xor_state_zero_l, xor_state_zero_r.
    reflexivity.
  - change (x_pow2 (S k)) with (psquare (x_pow2 k)).
    rewrite poly_apply_psquare, IH, IH
      by auto using poly_apply_valid, valid_iter_step.
    rewrite <- N.iter_add. f_equal.
    rewrite Nnat.Nat2N.inj_succ, N.pow_succ_r'. lia.
Qed.

Lemma calls_step (g : generator) (n : N) (s : xoshiro256) :
  calls g n s = N.iter n step s.
Proof.
  unfold calls. induction n as [ | n IH] using N.peano_ind; [reflexivity | ].
  rewrite !N.iter_succ, IH. apply call_state.
Qed.

(** By evaluation: the bits of [JUMP] are the coefficients of
    [X ^ (2 ^ 128)] modulo [CHARPOLY]. *)
Lemma jump_poly : strip (table_bits JUMP) = x_pow2 128.
Proof. vm_compute. reflexivity. Qed.

(** By evaluation: 64 further squarings give the bits of [LONG_JUMP]. *)
Lemma long_jump_poly :
  strip (table_bits LONG_JUMP) = Nat.iter 64 psquare (strip (table_bits JUMP)).
Proof. vm_compute. reflexivity. Qed.

Lemma x_pow2_add (j k : nat) : x_pow2 (j + k) = Nat.iter j psquare (x_pow2 k).
Proof.
  unfold x_pow2. apply Nat.iter_add.
Qed.

Lemma jump_calls (g : generator) (s : xoshiro256) :
  valid s -> jump g s = calls g (2 ^ 128) s.
Proof.
  intros Hs.
  rewrite jump_partition, stream_partition_poly, <- poly_apply_strip.
  rewrite jump_poly, poly_apply_x_pow2, calls_step by exact Hs.
  reflexivity.
Qed.

Lemma long_jump_calls (g : generator) (s : xoshiro256) :
  valid s -> long_jump g s = calls g (2 ^ 192) s.
Proof.
  intros Hs.
  rewrite long_jump_partition, stream_partition_poly, <- poly_apply_strip.
  rewrite long_jump_poly, jump_poly, <- x_pow2_add.
  rewrite poly_apply_x_pow2, calls_step by exact Hs.
  reflexivity.
Qed.

(** C5.  On every state of four 64-bit words, jump leaves the state that
    2^128 consecutive raw output calls leave, and long_jump the state that
    2^192 consecutive calls leave. *)
Theorem jump_equals_calls (g : generator) (s : xoshiro256) :
  valid s ->
  jump g s = calls g (2 ^ 128) s /\ long_jump g s = calls g (2 ^ 192) s.
Proof.
  intros Hs. split; [apply jump_calls | apply long_jump_calls]; exact Hs.
Qed.

Lemma valid_1234 : valid (seeded 1 2 3 4).
Proof.
  unfold valid, is_u64, seeded. cbn [s0 s1 s2 s3]. lia.
Defined.

Lemma jump_equals_calls_1234 :
  valid (seeded 1 2 3 4) /\
  jump Xoshiro256ss (seeded 1 2 3 4)
  = calls Xoshiro256ss (2 ^ 128) (seeded 1 2 3 4) /\
  long_jump Xoshiro256ss (seeded 1 2 3 4)
  = calls Xoshiro256ss (2 ^ 192) (seeded 1 2 3 4).
Proof.
  split; [exact valid_1234 | ].
  exact (jump_equals_calls Xoshiro256ss (seeded 1 2 3 4) valid_1234).
Defined.

(** On the state (1,2,3,4): the jump does not depend on the class, a second
    jump moves the state again, and jump and long_jump commute. *)
Example jump_1234 :
  jump Xoshiro256ss (seeded 1 2 3 4) = jump Xoshiro256p (seeded 1 2 3 4) /\
  jump Xoshiro256ss (jump Xoshiro256ss (seeded 1 2 3 4))
  <> jump Xoshiro256ss (seeded 1 2 3 4) /\
  long_jump Xoshiro256ss (jump Xoshiro256ss (seeded 1 2 3 4))
  = jump Xoshiro256ss (long_jump Xoshiro256ss (seeded 1 2 3 4)).
Proof.
  split; [vm_compute; reflexivity | ].
  split; [vm_compute; discriminate | vm_compute; reflexivity].
Qed.

(** ** States that are not all zero *)

Lemma charpoly_constant_term : CHARPOLY = true :: tl CHARPOLY.
Proof. vm_compute. reflexivity. Qed.

(** The transition sends no other state to zero: the constant coefficient
    of [CHARPOLY] is 1, so the transition is invertible. *)
Lemma step_zero_only (s : xoshiro256) :
  valid s -> step s = zero_state -> s = zero_state.
Proof.
  intros Hs H0. pose proof (charpoly_annihilates s Hs) as HP.
  rewrite charpoly_constant_term in HP. cbn [poly_apply] in HP.
  rewrite H0, poly_apply_zero, xor_state_zero_r in HP. exact HP.
Qed.

Lemma live_step (s : xoshiro256) : live s -> live (step s).
Proof.
  intros [Hs Hnz]. split; [apply valid_step, Hs | ].
  intros H0. apply Hnz, step_zero_only; assumption.
Qed.

Lemma live_calls (g : generator) (n : N) (s : xoshiro256) :
  live s -> live (calls g n s).
Proof.
  rewrite calls_step. apply N.iter_invariant. exact live_step.
Qed.

Lemma live_perform (g : generator) (op : operation) (s : xoshiro256) :
  live s -> live (perform g s op).
Proof.
  intros Hs. destruct op; cbn [perform].
  - rewrite call_state. apply live_step, Hs.
  - rewrite jump_calls by apply Hs. apply live_calls, Hs.
  - rewrite long_jump_calls by apply Hs. apply live_calls, Hs.
Qed.

Lemma live_run (g : generator) (ops : list operation) :
  forall s, live s -> live (run g ops s).
Proof.
  unfold run. induction ops as [ | op ops IH]; intros s Hs; [exact Hs | ].
  cbn [fold_left]. apply IH, live_perform, Hs.
Qed.

(** C8.  From a state of four 64-bit words that is not all zero, the state
    after a call of either class is not all zero, and neither is the state
    after any sequence of calls, jumps and long jumps. *)
Theorem nonzero_preserved (s : xoshiro256) :
  valid s -> s <> zero_state ->
  snd (ss_call s) <> zero_state /\
  snd (p_call s) <> zero_state /\
  forall (g : generator) (ops : list operation), run g ops s <> zero_state.
Proof.
  intros Hs Hnz. assert (Hlive : live s) by (split; assumption).
  split; [ | split].
  - apply (live_perform Xoshiro256ss Call s Hlive).
  - apply (live_perform Xoshiro256p Call s Hlive).
  - intros g ops. apply (live_run g ops s Hlive).
Qed.

Lemma nonzero_preserved_1234 :
  valid (seeded 1 2 3 4) /\
  seeded 1 2 3 4 <> zero_state /\
  snd (ss_call (seeded 1 2 3 4)) <> zero_state /\
  snd (p_call (seeded 1 2 3 4)) <> zero_state /\
  forall (g : generator) (ops : list operation),
    run g ops (seeded 1 2 3 4) <> zero_state.
Proof.
  assert (Hnz : seeded 1 2 3 4 <> zero_state) by discriminate.
  split; [exact valid_1234 | ].
  split; [exact Hnz | ].
  exact (nonzero_preserved (seeded 1 2 3 4) valid_1234 Hnz).
Defined.

(** ** UI64T2String *)

Lemma append_assoc (a b c : string) :
  ((a ++ b) ++ c)%string = (a ++ (b ++ c))%string.
Proof.
  induction a as [ | x a IH]; [reflexivity | ].
  cbn [append]. rewrite IH. reflexivity.
Qed.

Lemma append_empty_r (a : string) : (a ++ EmptyString)%string = a.
Proof.
  induction a as [ | x a IH]; [reflexivity | ].
  cbn [append]. rewrite IH. reflexivity.
Qed.

Lemma length_append (a b : string) :
  String.length (a ++ b) = (String.length a + String.length b)%nat.
Proof.
  induction a as [ | x a IH]; [reflexivity | ].
  cbn [append String.length]. rewrite IH. reflexivity.
Qed.

Lemma list_ascii_append (a b : string) :
  list_ascii_of_string (a ++ b)
  = (list_ascii_of_string a ++ list_ascii_of_string b)%list.
Proof.
  induction a as [ | x a IH]; [reflexivity | ].
  cbn [append list_ascii_of_string]. rewrite IH. reflexivity.
Qed.

Lemma land_1_bit (x : Z) : Z.land x 1 = Z.b2z (Z.testbit x 0).
Proof.
  change 1 with (Z.ones 1). rewrite Z.land_ones by lia.
  symmetry. apply Z.bit0_mod.
Qed.

(** What the stream holds after [ostrm << (copy & 1)]. *)
Lemma ostream_bit (copy : Z) :
  ostream_u64 (Z.land copy 1)
  = String (digit_char (Z.testbit copy 0)) EmptyString.
Proof.
  rewrite land_1_bit. destruct (Z.testbit copy 0); reflexivity.
Qed.

Lemma UI64T2String_loop_bits (n : nat) :
  forall copy result,
    UI64T2String_loop n copy result = (bit_string n copy ++ result)%string.
Proof.
  induction n as [ | n IH]; intros copy result; [reflexivity | ].
  cbn [UI64T2String_loop bit_string].
  rewrite IH, ostream_bit, append_assoc. reflexivity.
Qed.

Lemma UI64T2String_bits (x : Z) : UI64T2String x = bit_string 64 x.
Proof.
  unfold UI64T2String. rewrite UI64T2String_loop_bits. apply append_empty_r.
Qed.

Lemma length_bit_string (n : nat) :
  forall x, String.length (bit_string n x) = n.
Proof.
  induction n as [ | n IH]; intros x; [reflexivity | ].
  cbn [bit_string]. rewrite length_append, IH. cbn [String.length]. lia.
Qed.

Lemma get_bit_string (n : nat) :
  forall x i, (i < n)%nat ->
    String.get i (bit_string n x)
    = Some (digit_char (Z.testbit x (Z.of_nat (n - 1 - i)))).
Proof.
  induction n as [ | n IH]; intros x i Hi; [lia | ].
  cbn [bit_string]. destruct (Nat.eq_dec i n) as [-> | Hne].
  - replace (S n - 1 - n)%nat with 0%nat by lia.
    pose proof (append_correct2 (bit_string n (Z.shiftr x 1))
                  (String (digit_char (Z.testbit x 0)) EmptyString) 0) as H.
    rewrite length_bit_string in H. cbn [Nat.add] in H.
    rewrite <- H. reflexivity.
  - rewrite <- append_correct1 by (rewrite length_bit_string; lia).
    rewrite IH by lia. rewrite Z.shiftr_spec by lia.
    do 3 f_equal. lia.
Qed.

Lemma parse_bit_string (n : nat) :
  forall x, parse_binary (bit_string n x) = x mod 2 ^ Z.of_nat n.
Proof.
  unfold parse_binary. induction n as [ | n IH]; intros x.
  - cbn. rewrite Z.mod_1_r. reflexivity.
  - cbn [bit_string]. rewrite list_ascii_append, fold_left_app, IH.
    cbn [list_ascii_of_string fold_left].
    replace (if Ascii.eqb (digit_char (Z.testbit x 0)) "1" then 1 else 0)
      with (x mod 2)
      by (rewrite <- Z.bit0_mod; destruct (Z.testbit x 0); reflexivity).
    rewrite Z.shiftr_div_pow2 by lia. change (2 ^ 1) with 2.
    rewrite Nat2Z.inj_succ, Z.pow_succ_r by lia.
    rewrite Z.rem_mul_r by (try apply Z.pow_pos_nonneg; lia). lia.
Qed.

(** C10.  UI64T2String writes a 64-bit word as 64 characters, each the
    digit 0 or 1 of one bit, the most significant bit first, and reading the
    string back in base 2 gives the word. *)
Theorem UI64T2String_roundtrip (x : Z) :
  is_u64 x ->
  String.length (UI64T2String x) = 64%nat /\
  (forall i : nat, (i < 64)%nat ->
     String.get i (UI64T2String x)
     = Some (digit_char (Z.testbit x (Z.of_nat (63 - i))))) /\
  parse_binary (UI64T2String x) = x.
Proof.
  intros Hx. rewrite UI64T2String_bits. split; [ | split].
  - apply length_bit_string.
  - intros i Hi. rewrite get_bit_string by exact Hi. reflexivity.
  - rewrite parse_bit_string. apply Z.mod_small. exact Hx.
Qed.

Lemma UI64T2String_roundtrip_max :
  is_u64 UINT64_MAX /\
  String.length (UI64T2String UINT64_MAX) = 64%nat /\
  (forall i : nat, (i < 64)%nat ->
     String.get i (UI64T2String UINT64_MAX)
     = Some (digit_char (Z.testbit UINT64_MAX (Z.of_nat (63 - i))))) /\
  parse_binary (UI64T2String UINT64_MAX) = UINT64_MAX.
Proof.
  assert (H : is_u64 UINT64_MAX) by (unfold is_u64, UINT64_MAX; lia).
  split; [exact H | exact (UI64T2String_roundtrip UINT64_MAX H)].
Defined.

Example UI64T2String_zero :
  UI64T2String 0
  = "0000000000000000000000000000000000000000000000000000000000000000"%string
  /\ parse_binary (UI64T2String 0) = 0.
Proof. split; vm_compute; reflexivity. Qed.

Example UI64T2String_max :
  UI64T2String UINT64_MAX
  = "1111111111111111111111111111111111111111111111111111111111111111"%string
  /\ parse_binary (UI64T2String UINT64_MAX) = UINT64_MAX.
Proof. split; vm_compute; reflexivity. Qed.

Example UI64T2String_five :
  UI64T2String 5
  = "0000000000000000000000000000000000000000000000000000000000000101"%string.
Proof. vm_compute. reflexivity. Qed.

(** ** uniform *)

Lemma double_of_max : double_of_u64 UINT64_MAX = 18446744073709551616%float.
Proof. vm_compute. reflexivity. Qed.

(** The loop returns the first draw that is neither 0 nor the maximum. *)
Lemma uniform_draw_first (g : generator) (k : nat) :
  forall (fuel : nat) (s s1 s2 : xoshiro256) (rs : list Z) (n : Z),
    outputs g k s = (rs, s1) ->
    Forall (fun r => r = 0 \/ r = UINT64_MAX) rs ->
    call g s1 = (n, s2) ->
    n <> 0 -> n <> UINT64_MAX ->
    (k < fuel)%nat ->
    uniform_draw fuel g s = Some (n, s2).
Proof.
  induction k as [ | k IH]; intros fuel s s1 s2 rs n Hout Hrs Hcall Hn0 Hnm Hk.
  - cbn [outputs] in Hout. injection Hout as <- <-.
    destruct fuel as [ | fuel]; [lia | ]. cbn [uniform_draw].
    rewrite Hcall.
    destruct (Z.eqb_spec n 0); [contradiction | ].
    destruct (Z.eqb_spec n UINT64_MAX); [contradiction | ]. reflexivity.
  - cbn [outputs] in Hout.
    destruct (call g s) as [r s'] eqn:Hr.
    destruct (outputs g k s') as [rs' s''] eqn:Hrs'.
    injection Hout as <- <-. inversion Hrs as [ | r0 l0 Hrej Hrest]; subst.
    destruct fuel as [ | fuel]; [lia | ]. cbn [uniform_draw].
    rewrite Hr.
    replace ((r =? 0) || (r =? UINT64_MAX)) with true.
    + apply (IH fuel s' s'' s2 rs' n); auto. lia.
    + symmetry. apply orb_true_iff.
      destruct Hrej as [-> | ->]; [left | right]; apply Z.eqb_refl.
Qed.

(** C9, as the code has it.  uniform draws from the call operator of the
    object's own class (the scrambled output for xoshiro256ss, the additive
    output for xoshiro256p), draws again while the value is 0 or 2^64-1, and
    returns [low + (high-low)*n/(double)(2^64-1)] in [double] arithmetic for
    the first accepted value [n]; the divisor is 2^64, the [double] nearest
    to 2^64-1. *)
Theorem uniform_returns_scaled_draw
  (g : generator) (low high : float) (k fuel : nat)
  (s s1 s2 : xoshiro256) (rs : list Z) (n : Z) :
  outputs g k s = (rs, s1) ->
  Forall (fun r => r = 0 \/ r = UINT64_MAX) rs ->
  call g s1 = (n, s2) ->
  n <> 0 -> n <> UINT64_MAX ->
  (k < fuel)%nat ->
  uniform fuel g low high s
  = Some ((low + (high - low) * double_of_u64 n
                 / double_of_u64 (2 ^ 64 - 1))%float, s2) /\
  double_of_u64 (2 ^ 64 - 1) = 18446744073709551616%float.
Proof.
  intros Hout Hrs Hcall Hn0 Hnm Hk. split; [ | exact double_of_max].
  unfold uniform.
  rewrite (uniform_draw_first g k fuel s s1 s2 rs n) by assumption.
  reflexivity.
Qed.

Lemma uniform_returns_scaled_draw_witness :
  outputs Xoshiro256ss 1 (seeded 1 0 3 4)
  = ([0], State 5 2 2 140737488355328) /\
  uniform 2 Xoshiro256ss 0%float 1%float (seeded 1 0 3 4)
  = Some ((0 + (1 - 0) * double_of_u64 11520
                 / double_of_u64 (2 ^ 64 - 1))%float,
          State 140737488355335 5 262151 70369012613120) /\
  double_of_u64 (2 ^ 64 - 1) = 18446744073709551616%float.
Proof.
  assert (Hout : outputs Xoshiro256ss 1 (seeded 1 0 3 4)
                 = ([0], State 5 2 2 140737488355328))
    by (vm_compute; reflexivity).
  split; [exact Hout | ].
  apply (uniform_returns_scaled_draw Xoshiro256ss 0%float 1%float 1 2
           (seeded 1 0 3 4) (State 5 2 2 140737488355328)
           (State 140737488355335 5 262151 70369012613120) [0] 11520).
  - exact Hout.
  - constructor; [left; reflexivity | constructor].
  - vm_compute. reflexivity.
  - discriminate.
  - discriminate.
  - lia.
Defined.

(** C9 as stated fails twice.  An xoshiro256p object returns the scaled
    additive output, which differs from the scaled first accepted scrambled
    output of the same state; and the accepted draw 2^64-2 of an xoshiro256ss
    object is mapped to [high] itself, outside the open interval. *)
Lemma uniform_not_scrambled_nor_open :
  (uniform 1 Xoshiro256p 0%float 1%float (seeded 1 2 3 4)
   = Some (scale 0%float 1%float 5, State 7 0 262146 211106232532992) /\
   uniform_draw 1 Xoshiro256ss (seeded 1 2 3 4)
   = Some (11520, State 7 0 262146 211106232532992) /\
   (scale 0%float 1%float 5 =? scale 0%float 1%float 11520)%float = false)
  /\
  (uniform_draw 1 Xoshiro256ss (seeded 1 0x6c5b05b05b05b05b 3 4)
   = Some (2 ^ 64 - 2,
           State 7807840633976369246 7807840633976369241
                 819855292164866050 13117839522525481824) /\
   uniform 1 Xoshiro256ss 0%float 1%float (seeded 1 0x6c5b05b05b05b05b 3 4)
   = Some (1%float,
           State 7807840633976369246 7807840633976369241
                 819855292164866050 13117839522525481824) /\
   (1 <? 1)%float = false).
Proof.
  repeat split; vm_compute; reflexivity.
Qed.

(** From the all-zero state every draw is 0, and the loop never accepts. *)
Lemma uniform_zero_state_rejects (g : generator) (low high : float) :
  forall fuel : nat, uniform fuel g low high zero_state = None.
Proof.
  assert (Hdraw : forall fuel, uniform_draw fuel g zero_state = None).
  { induction fuel as [ | fuel IH]; [reflexivity | ].
    cbn [uniform_draw]. rewrite call_zero. exact IH. }
  intros fuel. unfold uniform. rewrite Hdraw. reflexivity.
Qed.

(** * Further properties of the code *)

(** ** rotl *)

Lemma rotl_testbit (x k n : Z) :
  is_u64 x -> 0 < k < 64 -> 0 <= n < 64 ->
  Z.testbit (rotl x k) n = Z.testbit x ((n - k) mod 64).
Proof.
  intros Hx Hk Hn. unfold rotl. word_bits.
  replace (n <? 64) with true by (symmetry; apply Z.ltb_lt; lia).
  destruct (Z.ltb_spec n k) as [Hlt | Hge].
  - rewrite (Z.testbit_neg_r x (n - k)) by lia.
    replace ((n - k) mod 64) with (n + (64 - k)).
    + reflexivity.
    + apply (Z.mod_unique_pos _ _ (-1)); lia.
  - rewrite (testbit_high x (n + (64 - k))) by (auto; lia).
    rewrite Z.mod_small by lia. btauto.
Qed.

Lemma rotl_back (x k : Z) :
  is_u64 x -> 0 < k < 64 -> rotl (rotl x k) (64 - k) = x.
Proof.
  intros Hx Hk.
  assert (Hr : is_u64 (rotl x k)) by (apply is_u64_rotl; [exact Hx | lia]).
  apply Z.bits_inj'. intros n Hn. destruct (Z.ltb_spec n 64) as [Hlt | Hge].
  - rewrite rotl_testbit by (auto; lia).
    rewrite rotl_testbit by (auto; try apply Z.mod_pos_bound; lia).
    rewrite Zminus_mod_idemp_l.
    replace (n - (64 - k) - k) with (n + -1 * 64) by lia.
    rewrite Z.mod_add, Z.mod_small by lia. reflexivity.
  - rewrite !testbit_high; auto. apply is_u64_rotl; [exact Hr | lia].
Qed.

(** X14.  On a 64-bit word and for 0 < k < 64, rotl is a rotation: bit [n]
    of the result is bit [(n - k) mod 64] of the argument, the result is a
    64-bit word, and the rotation by [64 - k] undoes it. *)
Theorem rotl_rotates (x k : Z) :
  is_u64 x -> 0 < k < 64 ->
  is_u64 (rotl x k) /\
  (forall n, 0 <= n < 64 ->
     Z.testbit (rotl x k) n = Z.testbit x ((n - k) mod 64)) /\
  rotl (rotl x k) (64 - k) = x.
Proof.
  intros Hx Hk. split; [apply is_u64_rotl; [exact Hx | lia] | ].
  split; [ | apply rotl_back; assumption].
  intros n Hn. apply rotl_testbit; assumption.
Qed.

Lemma rotl_rotates_5_7 :
  is_u64 5 /\ 0 < 7 < 64 /\
  is_u64 (rotl 5 7) /\
  (forall n, 0 <= n < 64 ->
     Z.testbit (rotl 5 7) n = Z.testbit 5 ((n - 7) mod 64)) /\
  rotl (rotl 5 7) (64 - 7) = 5.
Proof.
  assert (H5 : is_u64 5) by (unfold is_u64; lia).
  assert (H7 : 0 < 7 < 64) by lia.
  split; [exact H5 | ]. split; [exact H7 | ].
  exact (rotl_rotates 5 7 H5 H7).
Defined.

(** ** The output functions are onto *)

Lemma u64_mul_inv (c c' y : Z) :
  u64 (c * c') = 1 -> u64 (u64 (y * c) * c') = u64 y.
Proof.
  rewrite !u64_spec. intros H.
  rewrite Z.mul_mod_idemp_l, <- Z.mul_assoc, <- Z.mul_mod_idemp_r, H by lia.
  rewrite Z.mul_1_r. reflexivity.
Qed.

Lemma u64_mul_inj (c c' x y : Z) :
  u64 (c * c') = 1 -> is_u64 x -> is_u64 y ->
  u64 (x * c) = u64 (y * c) -> x = y.
Proof.
  intros Hc Hx Hy H.
  rewrite <- (u64_small x Hx), <- (u64_small y Hy).
  rewrite <- (u64_mul_inv c c' x Hc), <- (u64_mul_inv c c' y Hc), H.
  reflexivity.
Qed.

Lemma ss_call_result (s : xoshiro256) :
  fst (ss_call s) = u64 (rotl (u64 (s1 s * 5)) 7 * 9).
Proof.
  destruct s. reflexivity.
Qed.

Lemma unscramble_scramble (b : Z) :
  is_u64 b -> unscramble (u64 (rotl (u64 (b * 5)) 7 * 9)) = b.
Proof.
  intros Hb. unfold unscramble.
  rewrite (u64_mul_inv 9) by reflexivity.
  rewrite (u64_small (rotl (u64 (b * 5)) 7))
    by (apply is_u64_rotl; [apply u64_range | lia]).
  change 57 with (64 - 7). rewrite rotl_back by (try apply u64_range; lia).
  rewrite (u64_mul_inv 5) by reflexivity. apply u64_small, Hb.
Qed.

Lemma scramble_unscramble (v : Z) :
  is_u64 v -> u64 (rotl (u64 (unscramble v * 5)) 7 * 9) = v.
Proof.
  intros Hv. unfold unscramble.
  rewrite (u64_mul_inv 0xcccccccccccccccd 5) by reflexivity.
  rewrite (u64_small (rotl (u64 (v * 0x8e38e38e38e38e39)) 57))
    by (apply is_u64_rotl; [apply u64_range | lia]).
  change 7 with (64 - 57) at 1.
  rewrite rotl_back by (try apply u64_range; lia).
  rewrite (u64_mul_inv 0x8e38e38e38e38e39 9) by reflexivity.
  apply u64_small, Hv.
Qed.

(** X15.  The result of a call of xoshiro256ss is a one-to-one function of
    the word [s1] alone: it is [v] exactly when [s1] is [unscramble v]. *)
Theorem ss_call_result_bijective (s : xoshiro256) (v : Z) :
  is_u64 (s1 s) -> is_u64 v ->
  (fst (ss_call s) = v <-> s1 s = unscramble v).
Proof.
  intros Hs Hv. rewrite ss_call_result. split; intros H.
  - rewrite <- H. symmetry. apply unscramble_scramble, Hs.
  - rewrite H. apply scramble_unscramble, Hv.
Qed.

Lemma ss_call_result_bijective_1234 :
  is_u64 (s1 (seeded 1 2 3 4)) /\ is_u64 11520 /\
  (fst (ss_call (seeded 1 2 3 4)) = 11520
   <-> s1 (seeded 1 2 3 4) = unscramble 11520).
Proof.
  assert (H2 : is_u64 (s1 (seeded 1 2 3 4))) by (unfold is_u64; cbn; lia).
  assert (Hv : is_u64 11520) by (unfold is_u64; lia).
  split; [exact H2 | ]. split; [exact Hv | ].
  exact (ss_call_result_bijective (seeded 1 2 3 4) 11520 H2 Hv).
Defined.

(** X1.  Every result of a call of either class lies between [min()] and
    [max()], and every value of that range is the result of a call on some
    state of four 64-bit words: the declared range is exact. *)
Theorem call_range_exact (g : generator) :
  (forall s, xoshiro256_min <= fst (call g s) <= xoshiro256_max) /\
  (forall v, xoshiro256_min <= v <= xoshiro256_max ->
     exists s, valid s /\ fst (call g s) = v).
Proof.
  assert (Hrange : forall x, xoshiro256_min <= u64 x <= xoshiro256_max).
  { intros x. pose proof (u64_range x) as H.
    unfold is_u64, xoshiro256_min, xoshiro256_max, UINT64_MAX in *. lia. }
  assert (Hu : forall v, xoshiro256_min <= v <= xoshiro256_max -> is_u64 v).
  { intros v. unfold is_u64, xoshiro256_min, xoshiro256_max, UINT64_MAX. lia. }
  assert (H0 : is_u64 0) by (unfold is_u64; lia).
  split.
  - intros [a b c d]. destruct g; apply Hrange.
  - intros v Hv. apply Hu in Hv. destruct g.
    + exists (State 0 (unscramble v) 0 0). split.
      * unfold valid. cbn [s0 s1 s2 s3]. unfold unscramble.
        auto using u64_range.
      * rewrite ss_call_result. cbn [s1]. apply scramble_unscramble, Hv.
    + exists (State v 0 0 0). split.
      * unfold valid. cbn [s0 s1 s2 s3]. auto.
      * unfold call, p_call. cbn [fst]. rewrite Z.add_0_r.
        apply u64_small, Hv.
Qed.

(** ** splitmix64 *)

(** A word is determined by its xor with its own right shift. *)
Lemma xorshift_inj (k x y : Z) :
  0 < k -> is_u64 x -> is_u64 y ->
  Z.lxor x (Z.shiftr x k) = Z.lxor y (Z.shiftr y k) -> x = y.
Proof.
  intros Hk Hx Hy H.
  assert (Hbits : forall d : nat, forall n,
             64 - Z.of_nat d <= n -> Z.testbit x n = Z.testbit y n).
  { induction d as [ | d IH]; intros n Hn.
    - rewrite !testbit_high by (auto; lia). reflexivity.
    - destruct (Z.ltb_spec n 0) as [Hneg | Hpos].
      + rewrite !Z.testbit_neg_r by lia. reflexivity.
      + assert (Hn' : Z.testbit (Z.lxor x (Z.shiftr x k)) n
                      = Z.testbit (Z.lxor y (Z.shiftr y k)) n)
          by (rewrite H; reflexivity).
        rewrite !Z.lxor_spec, !Z.shiftr_spec in Hn' by lia.
        rewrite (IH (n + k)) in Hn' by lia.
        destruct (Z.testbit x n), (Z.testbit y n), (Z.testbit y (n + k));
          (reflexivity || discriminate). }
  apply Z.bits_inj'. intros n Hn. apply (Hbits 64%nat). lia.
Qed.

Lemma is_u64_xorshift (k x : Z) :
  0 <= k -> is_u64 x -> is_u64 (Z.lxor x (Z.shiftr x k)).
Proof.
  intros Hk Hx. apply is_u64_lxor; [exact Hx | ].
  apply is_u64_shiftr; assumption.
Qed.

Lemma splitmix64_mix_inj (x y : Z) :
  is_u64 x -> is_u64 y -> splitmix64_mix x = splitmix64_mix y -> x = y.
Proof.
  intros Hx Hy H. unfold splitmix64_mix in H.
  apply xorshift_inj in H; [ | lia | apply u64_range | apply u64_range].
  apply (u64_mul_inj _ 0x319642b2d24d8ec3) in H;
    [ | reflexivity | apply is_u64_xorshift; [lia | apply u64_range]
      | apply is_u64_xorshift; [lia | apply u64_range] ].
  apply xorshift_inj in H; [ | lia | apply u64_range | apply u64_range].
  apply (u64_mul_inj _ 0x96de1b173f119089) in H;
    [ | reflexivity | apply is_u64_xorshift; [lia | exact Hx]
      | apply is_u64_xorshift; [lia | exact Hy] ].
  apply xorshift_inj in H; [exact H | lia | exact Hx | exact Hy].
Qed.

Lemma is_u64_mix (z : Z) : is_u64 (splitmix64_mix z).
Proof.
  unfold splitmix64_mix. apply is_u64_xorshift; [lia | apply u64_range].
Qed.

Lemma splitmix64_next_mix (x : Z) :
  splitmix64.next x
  = (splitmix64_mix (u64 (x + 0x9e3779b97f4a7c15)),
     u64 (x + 0x9e3779b97f4a7c15)).
Proof. reflexivity. Qed.

Lemma u64_add_inj (c x y : Z) :
  is_u64 x -> is_u64 y -> u64 (x + c) = u64 (y + c) -> x = y.
Proof.
  unfold is_u64. rewrite !u64_spec. intros Hx Hy H.
  apply Z.cong_iff_0 in H. replace (x + c - (y + c)) with (x - y) in H by lia.
  apply Z.mod_divide in H; [ | lia]. destruct H as [q Hq]. lia.
Qed.

Lemma splitmix64_next_inj (x y : Z) :
  is_u64 x -> is_u64 y ->
  fst (splitmix64.next x) = fst (splitmix64.next y) -> x = y.
Proof.
  intros Hx Hy H. rewrite !splitmix64_next_mix in H. cbn [fst] in H.
  apply splitmix64_mix_inj in H; [ | apply u64_range | apply u64_range].
  apply (u64_add_inj _ x y Hx Hy H).
Qed.

(** X3.  Two splitmix64 objects in different states return different
    results and are left in different states: the result of a call
    determines the state. *)
Theorem splitmix64_next_injective (x y : Z) :
  is_u64 x -> is_u64 y -> x <> y ->
  fst (splitmix64.next x) <> fst (splitmix64.next y) /\
  snd (splitmix64.next x) <> snd (splitmix64.next y).
Proof.
  intros Hx Hy Hxy. split; intros H; apply Hxy.
  - apply splitmix64_next_inj; assumption.
  - rewrite !splitmix64_next_mix in H. cbn [snd] in H.
    apply (u64_add_inj _ x y Hx Hy H).
Qed.

Lemma splitmix64_next_injective_0_1 :
  is_u64 0 /\ is_u64 1 /\ 0 <> 1 /\
  fst (splitmix64.next 0) <> fst (splitmix64.next 1) /\
  snd (splitmix64.next 0) <> snd (splitmix64.next 1).
Proof.
  assert (H0 : is_u64 0) by (unfold is_u64; lia).
  assert (H1 : is_u64 1) by (unfold is_u64; lia).
  assert (H01 : 0 <> 1) by discriminate.
  split; [exact H0 | ]. split; [exact H1 | ]. split; [exact H01 | ].
  exact (splitmix64_next_injective 0 1 H0 H1 H01).
Defined.

Lemma splitmix64_skip_sum (n : N) (x : Z) :
  is_u64 x ->
  splitmix64_skip n x = u64 (x + Z.of_N n * 0x9e3779b97f4a7c15).
Proof.
  intros Hx. unfold splitmix64_skip.
  induction n as [ | n IH] using N.peano_ind.
  - cbn [N.iter Z.of_N]. rewrite Z.mul_0_l, Z.add_0_r, u64_small by exact Hx.
    reflexivity.
  - rewrite N.iter_succ, IH, splitmix64_next_mix. cbn [snd].
    rewrite !u64_spec, Z.add_mod_idemp_l by lia. f_equal. lia.
Qed.

Lemma gamma_odd : Z.gcd (2 ^ 64) 0x9e3779b97f4a7c15 = 1.
Proof. vm_compute. reflexivity. Qed.

Lemma splitmix64_skip_eq (i j : N) (x : Z) :
  is_u64 x ->
  (splitmix64_skip i x = splitmix64_skip j x
   <-> (i mod 2 ^ 64 = j mod 2 ^ 64)%N).
Proof.
  intros Hx. rewrite !splitmix64_skip_sum, !u64_spec by exact Hx.
  rewrite Z.cong_iff_0.
  replace (x + Z.of_N i * 0x9e3779b97f4a7c15
           - (x + Z.of_N j * 0x9e3779b97f4a7c15))
    with (0x9e3779b97f4a7c15 * (Z.of_N i - Z.of_N j)) by lia.
  assert (Hm : (Z.of_N i mod 2 ^ 64 = Z.of_N j mod 2 ^ 64)
               <-> (i mod 2 ^ 64 = j mod 2 ^ 64)%N).
  { change (2 ^ 64) with (Z.of_N (2 ^ 64)) at 1 2.
    rewrite <- !N2Z.inj_mod. split; [apply N2Z.inj | congruence]. }
  rewrite <- Hm, (Z.cong_iff_0 (Z.of_N i)), !Z.mod_divide by lia.
  split.
  - intros H. apply (Z.gauss _ _ _ H), gamma_odd.
  - intros H. apply Z.divide_mul_r, H.
Qed.

Lemma splitmix64_output_eq (i j : N) (x : Z) :
  is_u64 x ->
  (splitmix64_output i x = splitmix64_output j x
   <-> (i mod 2 ^ 64 = j mod 2 ^ 64)%N).
Proof.
  intros Hx. rewrite <- (splitmix64_skip_eq i j x Hx).
  unfold splitmix64_output. rewrite !splitmix64_next_mix. cbn [fst].
  split.
  - intros H.
    apply splitmix64_mix_inj in H; [ | apply u64_range | apply u64_range].
    rewrite !splitmix64_skip_sum in * by exact Hx.
    rewrite !u64_spec in *. rewrite !Z.add_mod_idemp_l in H by lia.
    apply Z.cong_iff_0 in H. apply Z.cong_iff_0.
    rewrite <- H. f_equal. lia.
  - intros ->. reflexivity.
Qed.

(** X4.  The stream of a splitmix64 object has period exactly 2^64: the
    results of call [i] and call [j] of one object coincide exactly when
    [i] and [j] are congruent modulo 2^64. *)
Theorem splitmix64_period (i j : N) (x : Z) :
  is_u64 x ->
  (splitmix64_output i x = splitmix64_output j x
   <-> (i mod 2 ^ 64 = j mod 2 ^ 64)%N).
Proof.
  intros Hx. apply splitmix64_output_eq, Hx.
Qed.

Lemma splitmix64_period_0 :
  is_u64 0 /\
  (splitmix64_output 3 0 = splitmix64_output (2 ^ 64 + 3) 0
   <-> (3 mod 2 ^ 64 = (2 ^ 64 + 3) mod 2 ^ 64)%N).
Proof.
  assert (H0 : is_u64 0) by (unfold is_u64; lia).
  split; [exact H0 | exact (splitmix64_period 3 (2 ^ 64 + 3) 0 H0)].
Defined.

(** ** The default constructor *)

Lemma time_seeded_words (now : Z) :
  time_seeded now
  = State (splitmix64_output 0 (u64 now)) (splitmix64_output 1 (u64 now))
          (splitmix64_output 2 (u64 now)) (splitmix64_output 3 (u64 now)).
Proof. reflexivity. Qed.

Lemma is_u64_output (n : N) (x : Z) : is_u64 (splitmix64_output n x).
Proof.
  unfold splitmix64_output. rewrite splitmix64_next_mix. apply is_u64_mix.
Qed.

(** X2.  Whatever the clock reads, the default constructor leaves a state of
    four 64-bit words that are pairwise different, hence not all zero, and
    no sequence of calls, jumps and long jumps makes it all zero. *)
Theorem time_seeded_nonzero (now : Z) :
  valid (time_seeded now) /\
  NoDup [s0 (time_seeded now); s1 (time_seeded now);
         s2 (time_seeded now); s3 (time_seeded now)] /\
  time_seeded now <> zero_state /\
  forall (g : generator) (ops : list operation),
    run g ops (time_seeded now) <> zero_state.
Proof.
  assert (Hx : is_u64 (u64 now)) by apply u64_range.
  assert (Hne : forall i j : N,
             (i mod 2 ^ 64 <> j mod 2 ^ 64)%N ->
             splitmix64_output i (u64 now) <> splitmix64_output j (u64 now)).
  { intros i j Hij H. apply Hij, (splitmix64_output_eq i j _ Hx), H. }
  assert (Hvalid : valid (time_seeded now)).
  { rewrite time_seeded_words. unfold valid. cbn [s0 s1 s2 s3].
    auto using is_u64_output. }
  assert (Hnz : time_seeded now <> zero_state).
  { rewrite time_seeded_words. intros H. injection H as H0 H1 _ _.
    apply (Hne 0%N 1%N); [discriminate | congruence]. }
  split; [exact Hvalid | ]. split; [ | split; [exact Hnz | ]].
  - rewrite time_seeded_words. cbn [s0 s1 s2 s3].
    repeat constructor; cbn [In]; intros H;
      repeat (destruct H as [H | H]; [revert H; apply Hne; discriminate | ]);
      exact H.
  - intros g ops. apply (live_run g ops). split; assumption.
Qed.

(** ** How the operations compose *)

Lemma jump_poly_apply (g : generator) (s : xoshiro256) :
  jump g s = poly_apply (table_bits JUMP) s.
Proof.
  rewrite jump_partition. apply stream_partition_poly.
Qed.

Lemma long_jump_poly_apply (g : generator) (s : xoshiro256) :
  long_jump g s = poly_apply (table_bits LONG_JUMP) s.
Proof.
  rewrite long_jump_partition. apply stream_partition_poly.
Qed.

Lemma perform_class (g g' : generator) (s : xoshiro256) (op : operation) :
  perform g s op = perform g' s op.
Proof.
  destruct op; cbn [perform].
  - rewrite !call_state. reflexivity.
  - rewrite !jump_poly_apply. reflexivity.
  - rewrite !long_jump_poly_apply. reflexivity.
Qed.

(** X5.  The state that a sequence of calls, jumps and long jumps leaves
    does not depend on the class of the object: an xoshiro256p object and an
    xoshiro256ss object started from one state stay in step. *)
Theorem run_class_independent (ops : list operation) (s : xoshiro256) :
  run Xoshiro256ss ops s = run Xoshiro256p ops s.
Proof.
  unfold run. revert s. induction ops as [ | op ops IH]; intros s.
  - reflexivity.
  - cbn [fold_left]. rewrite IH.
    rewrite (perform_class Xoshiro256ss Xoshiro256p). reflexivity.
Qed.

Lemma valid_calls (g : generator) (n : N) (s : xoshiro256) :
  valid s -> valid (calls g n s).
Proof.
  rewrite calls_step. apply valid_iter_step.
Qed.

Lemma calls_add (g : generator) (m n : N) (s : xoshiro256) :
  calls g m (calls g n s) = calls g (m + n) s.
Proof.
  unfold calls. symmetry. apply N.iter_add.
Qed.

Lemma calls_1 (g : generator) (s : xoshiro256) :
  calls g 1 s = snd (call g s).
Proof. reflexivity. Qed.

(** X6.  On a state of four 64-bit words, jump, long_jump and the call
    commute with one another: the order in which they are applied does not
    change the state they leave. *)
Theorem jumps_commute (g : generator) (s : xoshiro256) :
  valid s ->
  jump g (long_jump g s) = long_jump g (jump g s) /\
  jump g (snd (call g s)) = snd (call g (jump g s)) /\
  long_jump g (snd (call g s)) = snd (call g (long_jump g s)).
Proof.
  intros Hs. rewrite <- !calls_1.
  rewrite !(jump_calls g s), !(long_jump_calls g s) by exact Hs.
  rewrite !jump_calls, !long_jump_calls by (apply valid_calls, Hs).
  rewrite !calls_add. repeat split; f_equal; apply N.add_comm.
Qed.

Lemma jumps_commute_1234 :
  valid (seeded 1 2 3 4) /\
  jump Xoshiro256ss (long_jump Xoshiro256ss (seeded 1 2 3 4))
  = long_jump Xoshiro256ss (jump Xoshiro256ss (seeded 1 2 3 4)) /\
  jump Xoshiro256ss (snd (call Xoshiro256ss (seeded 1 2 3 4)))
  = snd (call Xoshiro256ss (jump Xoshiro256ss (seeded 1 2 3 4))) /\
  long_jump Xoshiro256ss (snd (call Xoshiro256ss (seeded 1 2 3 4)))
  = snd (call Xoshiro256ss (long_jump Xoshiro256ss (seeded 1 2 3 4))).
Proof.
  split; [exact valid_1234 | ].
  exact (jumps_commute Xoshiro256ss (seeded 1 2 3 4) valid_1234).
Defined.

Lemma calls_mul (g : generator) (a b : N) :
  forall s, calls g (a * b) s = N.iter a (calls g b) s.
Proof.
  induction a as [ | a IH] using N.peano_ind; intros s; [reflexivity | ].
  rewrite N.mul_succ_l, <- calls_add, IH, N.iter_succ_r. reflexivity.
Qed.

Lemma iter_agree {A : Type} (Inv : A -> Prop) (f h : A -> A) :
  (forall x, Inv x -> Inv (h x)) ->
  (forall x, Inv x -> f x = h x) ->
  forall (n : N) (x : A), Inv x -> N.iter n f x = N.iter n h x.
Proof.
  intros Hinv Hfh n x Hx.
  assert (H : N.iter n f x = N.iter n h x /\ Inv (N.iter n h x)).
  { induction n as [ | n [IH IHinv]] using N.peano_ind; [split; auto | ].
    rewrite !N.iter_succ, IH. split; [apply Hfh | apply Hinv]; exact IHinv. }
  apply H.
Qed.

(** X7.  On a state of four 64-bit words, long_jump leaves the state that
    2^64 consecutive jumps leave. *)
Theorem long_jump_is_2_64_jumps (g : generator) (s : xoshiro256) :
  valid s -> long_jump g s = N.iter (2 ^ 64) (jump g) s.
Proof.
  intros Hs.
  rewrite (iter_agree valid (jump g) (calls g (2 ^ 128)));
    [ | intros x; apply valid_calls | intros x; apply jump_calls | exact Hs].
  rewrite long_jump_calls, <- calls_mul by exact Hs. reflexivity.
Qed.

Lemma long_jump_is_2_64_jumps_1234 :
  valid (seeded 1 2 3 4) /\
  long_jump Xoshiro256ss (seeded 1 2 3 4)
  = N.iter (2 ^ 64) (jump Xoshiro256ss) (seeded 1 2 3 4).
Proof.
  split; [exact valid_1234 | ].
  exact (long_jump_is_2_64_jumps Xoshiro256ss (seeded 1 2 3 4) valid_1234).
Defined.

(** ** Streams never merge *)

Lemma xor_state_eq (a b : xoshiro256) :
  xor_state a b = zero_state -> a = b.
Proof.
  destruct a as [a0 a1 a2 a3], b as [b0 b1 b2 b3].
  unfold xor_state, zero_state. cbn [s0 s1 s2 s3].
  intros H. injection H as H0 H1 H2 H3.
  apply Z.lxor_eq in H0, H1, H2, H3. congruence.
Qed.

Lemma step_inj (a b : xoshiro256) :
  valid a -> valid b -> step a = step b -> a = b.
Proof.
  intros Ha Hb H. apply xor_state_eq, step_zero_only.
  - apply valid_xor; assumption.
  - rewrite step_xor, H by assumption. apply xor_state_nilpotent.
Qed.

Lemma calls_inj (g : generator) (n : N) (a b : xoshiro256) :
  valid a -> valid b -> calls g n a = calls g n b -> a = b.
Proof.
  intros Ha Hb. rewrite !calls_step.
  induction n as [ | n IH] using N.peano_ind; [auto | ].
  rewrite !N.iter_succ. intros H. apply IH.
  apply step_inj; auto using valid_iter_step.
Qed.

Lemma valid_perform (g : generator) (op : operation) (s : xoshiro256) :
  valid s -> valid (perform g s op).
Proof.
  intros Hs. destruct op; cbn [perform].
  - rewrite call_state. apply valid_step, Hs.
  - rewrite jump_calls by exact Hs. apply valid_calls, Hs.
  - rewrite long_jump_calls by exact Hs. apply valid_calls, Hs.
Qed.

Lemma perform_inj (g : generator) (op : operation) (a b : xoshiro256) :
  valid a -> valid b -> perform g a op = perform g b op -> a = b.
Proof.
  intros Ha Hb. destruct op; cbn [perform].
  - rewrite <- !calls_1. apply calls_inj; assumption.
  - rewrite !jump_calls by assumption. apply calls_inj; assumption.
  - rewrite !long_jump_calls by assumption. apply calls_inj; assumption.
Qed.

(** X8.  Two objects whose states of four 64-bit words differ are still in
    different states after the same sequence of calls, jumps and long
    jumps: every operation is one-to-one on the states. *)
Theorem run_injective (g : generator) (ops : list operation)
  (a b : xoshiro256) :
  valid a -> valid b -> a <> b -> run g ops a <> run g ops b.
Proof.
  unfold run. revert a b.
  induction ops as [ | op ops IH]; intros a b Ha Hb Hab; [exact Hab | ].
  cbn [fold_left]. apply IH; auto using valid_perform.
  intros H. apply Hab, (perform_inj g op); assumption.
Qed.

Lemma run_injective_witness :
  valid (seeded 1 2 3 4) /\ valid (seeded 4 3 2 1) /\
  seeded 1 2 3 4 <> seeded 4 3 2 1 /\
  run Xoshiro256ss [Call; Jump; LongJump] (seeded 1 2 3 4)
  <> run Xoshiro256ss [Call; Jump; LongJump] (seeded 4 3 2 1).
Proof.
  assert (Hb : valid (seeded 4 3 2 1))
    by (unfold valid, is_u64, seeded; cbn [s0 s1 s2 s3]; lia).
  assert (Hab : seeded 1 2 3 4 <> seeded 4 3 2 1) by discriminate.
  split; [exact valid_1234 | ]. split; [exact Hb | ]. split; [exact Hab | ].
  exact (run_injective Xoshiro256ss [Call; Jump; LongJump]
           (seeded 1 2 3 4) (seeded 4 3 2 1) valid_1234 Hb Hab).
Defined.

(** ** The period *)

(** By evaluation: 64 squarings of the long-jump polynomial give [X]. *)
Lemma x_pow2_256 :
  Nat.iter 64 psquare (strip (table_bits LONG_JUMP)) = [false; true].
Proof. vm_compute. reflexivity. Qed.

Lemma calls_2_256 (g : generator) (s : xoshiro256) :
  valid s -> calls g (2 ^ 256) s = snd (call g s).
Proof.
  intros Hs. rewrite calls_step, call_state.
  change (2 ^ 256)%N with (2 ^ N.of_nat (64 + (64 + 128)))%N.
  rewrite <- poly_apply_x_pow2 by exact Hs.
  rewrite !x_pow2_add, <- jump_poly, <- long_jump_poly, x_pow2_256.
  cbn [poly_apply]. rewrite xor_state_zero_l, xor_state_zero_r. reflexivity.
Qed.

(** X9.  On a state of four 64-bit words the sequence of states is
    periodic: 2^256 - 1 consecutive calls bring the state back, and 2^64
    consecutive long jumps leave the state that one call leaves. *)
Theorem period_divides_2_256_minus_1 (g : generator) (s : xoshiro256) :
  valid s ->
  calls g (2 ^ 256 - 1) s = s /\
  N.iter (2 ^ 64) (long_jump g) s = snd (call g s).
Proof.
  intros Hs. split.
  - apply (calls_inj g 1); [apply valid_calls, Hs | exact Hs | ].
    rewrite calls_add, calls_1.
    replace (1 + (2 ^ 256 - 1))%N with (2 ^ 256)%N by reflexivity.
    apply calls_2_256, Hs.
  - rewrite (iter_agree valid (long_jump g) (calls g (2 ^ 192)));
      [ | intros x; apply valid_calls | intros x; apply long_jump_calls
        | exact Hs].
    rewrite <- calls_mul. apply (calls_2_256 g s Hs).
Qed.

Lemma period_divides_2_256_minus_1_1234 :
  valid (seeded 1 2 3 4) /\
  calls Xoshiro256ss (2 ^ 256 - 1) (seeded 1 2 3 4) = seeded 1 2 3 4 /\
  N.iter (2 ^ 64) (long_jump Xoshiro256ss) (seeded 1 2 3 4)
  = snd (call Xoshiro256ss (seeded 1 2 3 4)).
Proof.
  split; [exact valid_1234 | ].
  exact (period_divides_2_256_minus_1 Xoshiro256ss (seeded 1 2 3 4)
           valid_1234).
Defined.

(** ** No operation fixes a state *)

Lemma inv_call_product :
  strip (reduce (pmul INV_CALL [true; true])) = [true].
Proof. vm_compute. reflexivity. Qed.

Lemma inv_jump_product :
  strip (reduce (pmul INV_JUMP (padd (table_bits JUMP) [true]))) = [true].
Proof. vm_compute. reflexivity. Qed.

Lemma inv_long_jump_product :
  strip (reduce (pmul INV_LONG_JUMP (padd (table_bits LONG_JUMP) [true])))
  = [true].
Proof. vm_compute. reflexivity. Qed.

Lemma inv_jump_long_jump_product :
  strip (reduce (pmul INV_JUMP_LONG_JUMP
                   (padd (table_bits JUMP) (table_bits LONG_JUMP))))
  = [true].
Proof. vm_compute. reflexivity. Qed.

(** A polynomial that has an inverse modulo [CHARPOLY] sends no other state
    than zero to zero. *)
Lemma invertible_kernel (a q : poly) (s : xoshiro256) :
  strip (reduce (pmul q a)) = [true] ->
  valid s -> poly_apply a s = zero_state -> s = zero_state.
Proof.
  intros Hq Hs Ha.
  assert (H1 : poly_apply [true] s = s)
    by (cbn [poly_apply]; apply xor_state_zero_r).
  rewrite <- H1, <- Hq, poly_apply_strip, poly_apply_reduce, poly_apply_pmul
    by exact Hs.
  rewrite Ha. apply poly_apply_zero.
Qed.

Lemma call_moves (g : generator) (s : xoshiro256) :
  live s -> snd (call g s) <> s.
Proof.
  intros [Hs Hnz] H. apply Hnz.
  apply (invertible_kernel _ _ s inv_call_product Hs).
  rewrite call_state in H. cbn [poly_apply].
  rewrite H, xor_state_zero_r. apply xor_state_nilpotent.
Qed.

Lemma jump_moves (g : generator) (s : xoshiro256) :
  live s -> jump g s <> s.
Proof.
  intros [Hs Hnz] H. apply Hnz.
  apply (invertible_kernel _ _ s inv_jump_product Hs).
  rewrite poly_apply_padd, <- (jump_poly_apply g), H. cbn [poly_apply].
  rewrite xor_state_zero_r. apply xor_state_nilpotent.
Qed.

Lemma long_jump_moves (g : generator) (s : xoshiro256) :
  live s -> long_jump g s <> s.
Proof.
  intros [Hs Hnz] H. apply Hnz.
  apply (invertible_kernel _ _ s inv_long_jump_product Hs).
  rewrite poly_apply_padd, <- (long_jump_poly_apply g), H. cbn [poly_apply].
  rewrite xor_state_zero_r. apply xor_state_nilpotent.
Qed.

(** X10.  From a state of four 64-bit words that is not all zero, a call,
    a jump and a long jump each leave a state different from the one they
    started from; a jump and a long jump leave different states; and a
    second jump leaves a state different from the first. *)
Theorem operations_move_state (g : generator) (s : xoshiro256) :
  valid s -> s <> zero_state ->
  snd (call g s) <> s /\
  jump g s <> s /\
  long_jump g s <> s /\
  jump g s <> long_jump g s /\
  jump g (jump g s) <> jump g s.
Proof.
  intros Hs Hnz. assert (Hlive : live s) by (split; assumption).
  split; [apply call_moves, Hlive | ].
  split; [apply jump_moves, Hlive | ].
  split; [apply long_jump_moves, Hlive | ].
  split.
  - intros H. apply Hnz.
    apply (invertible_kernel _ _ s inv_jump_long_jump_product Hs).
    rewrite poly_apply_padd, <- (jump_poly_apply g),
      <- (long_jump_poly_apply g), H.
    apply xor_state_nilpotent.
  - apply jump_moves. rewrite jump_calls by exact Hs.
    apply live_calls, Hlive.
Qed.

Lemma operations_move_state_1234 :
  valid (seeded 1 2 3 4) /\ seeded 1 2 3 4 <> zero_state /\
  snd (call Xoshiro256ss (seeded 1 2 3 4)) <> seeded 1 2 3 4 /\
  jump Xoshiro256ss (seeded 1 2 3 4) <> seeded 1 2 3 4 /\
  long_jump Xoshiro256ss (seeded 1 2 3 4) <> seeded 1 2 3 4 /\
  jump Xoshiro256ss (seeded 1 2 3 4)
  <> long_jump Xoshiro256ss (seeded 1 2 3 4) /\
  jump Xoshiro256ss (jump Xoshiro256ss (seeded 1 2 3 4))
  <> jump Xoshiro256ss (seeded 1 2 3 4).
Proof.
  assert (Hnz : seeded 1 2 3 4 <> zero_state) by discriminate.
  split; [exact valid_1234 | ]. split; [exact Hnz | ].
  exact (operations_move_state Xoshiro256ss (seeded 1 2 3 4) valid_1234 Hnz).
Defined.

(** ** uniform *)

Lemma call_result_u64 (g : generator) (s : xoshiro256) :
  is_u64 (fst (call g s)).
Proof.
  destruct s as [a b c d]. destruct g; apply u64_range.
Qed.

Lemma outputs_state (g : generator) (k : nat) :
  forall s, snd (outputs g k s) = calls g (N.of_nat k) s.
Proof.
  induction k as [ | k IH]; intros s; [reflexivity | ].
  cbn [outputs]. destruct (call g s) as [r s1] eqn:Hcall.
  specialize (IH s1). destruct (outputs g k s1) as [rs s2]. cbn [snd] in *.
  rewrite IH, Nnat.Nat2N.inj_succ. unfold calls.
  rewrite N.iter_succ_r, Hcall. reflexivity.
Qed.

(** Whatever the loop returns is the first draw that is neither 0 nor the
    maximum. *)
Lemma uniform_draw_sound (g : generator) (fuel : nat) :
  forall (s s' : xoshiro256) (n : Z),
    uniform_draw fuel g s = Some (n, s') ->
    exists (k : nat) (rs : list Z) (s1 : xoshiro256),
      (k < fuel)%nat /\
      outputs g k s = (rs, s1) /\
      Forall (fun r => r = 0 \/ r = UINT64_MAX) rs /\
      call g s1 = (n, s') /\
      0 < n < UINT64_MAX.
Proof.
  induction fuel as [ | fuel IH]; intros s s' n H; [discriminate | ].
  cbn [uniform_draw] in H. destruct (call g s) as [r s1] eqn:Hcall.
  pose proof (call_result_u64 g s) as Hr. rewrite Hcall in Hr. cbn [fst] in Hr.
  destruct (Z.eqb_spec r 0) as [H0 | H0];
    [ | destruct (Z.eqb_spec r UINT64_MAX) as [Hm | Hm] ]; cbn [orb] in H.
  - apply IH in H as (k & rs & s2 & Hk & Hout & Hrs & Hn & Hrange).
    exists (S k), (r :: rs), s2. cbn [outputs]. rewrite Hcall, Hout.
    repeat split; auto; try lia.
  - apply IH in H as (k & rs & s2 & Hk & Hout & Hrs & Hn & Hrange).
    exists (S k), (r :: rs), s2. cbn [outputs]. rewrite Hcall, Hout.
    repeat split; auto; try lia.
  - injection H as <- <-. exists 0%nat, [], s. cbn [outputs].
    unfold is_u64, UINT64_MAX in *. repeat split; auto; lia.
Qed.

(** X11.  Whatever uniform returns comes from a draw [n] with
    0 < n < 2^64-1 of the object's own call operator, all draws before it
    having been 0 or 2^64-1; the state left is the one after those calls. *)
Theorem uniform_sound (g : generator) (fuel : nat) (low high v : float)
  (s s' : xoshiro256) :
  uniform fuel g low high s = Some (v, s') ->
  exists (k : nat) (rs : list Z) (s1 : xoshiro256) (n : Z),
    (k < fuel)%nat /\
    outputs g k s = (rs, s1) /\
    Forall (fun r => r = 0 \/ r = UINT64_MAX) rs /\
    call g s1 = (n, s') /\
    0 < n < UINT64_MAX /\
    v = scale low high n /\
    s' = calls g (N.of_nat (S k)) s.
Proof.
  unfold uniform. intros H.
  destruct (uniform_draw fuel g s) as [[n s2] | ] eqn:Hdraw; [ | discriminate].
  injection H as <- <-.
  apply uniform_draw_sound in Hdraw as (k & rs & s1 & Hk & Hout & Hrs & Hn & Hr).
  exists k, rs, s1, n. repeat split; auto; try lia.
  pose proof (outputs_state g k s) as Hst. rewrite Hout in Hst. cbn [snd] in Hst.
  rewrite Nnat.Nat2N.inj_succ. unfold calls in *.
  rewrite N.iter_succ, <- Hst, Hn. reflexivity.
Qed.

Lemma uniform_sound_witness :
  uniform 2 Xoshiro256ss 0%float 1%float (seeded 1 0 3 4)
  = Some (scale 0%float 1%float 11520,
          State 140737488355335 5 262151 70369012613120) /\
  exists (k : nat) (rs : list Z) (s1 : xoshiro256) (n : Z),
    (k < 2)%nat /\
    outputs Xoshiro256ss k (seeded 1 0 3 4) = (rs, s1) /\
    Forall (fun r => r = 0 \/ r = UINT64_MAX) rs /\
    call Xoshiro256ss s1
    = (n, State 140737488355335 5 262151 70369012613120) /\
    0 < n < UINT64_MAX /\
    scale 0%float 1%float 11520 = scale 0%float 1%float n /\
    State 140737488355335 5 262151 70369012613120
    = calls Xoshiro256ss (N.of_nat (S k)) (seeded 1 0 3 4).
Proof.
  assert (H : uniform 2 Xoshiro256ss 0%float 1%float (seeded 1 0 3 4)
              = Some (scale 0%float 1%float 11520,
                      State 140737488355335 5 262151 70369012613120))
    by (vm_compute; reflexivity).
  split; [exact H | ].
  exact (uniform_sound Xoshiro256ss 2 0%float 1%float _ _ _ H).
Defined.

Lemma finite_eqb_eq (a b : spec_float) : finite_eqb a b = true -> a = b.
Proof.
  destruct a as [ | | | sa ma ea], b as [ | | | sb mb eb];
    cbn [finite_eqb]; try discriminate.
  intros H. apply andb_prop in H as [H He]. apply andb_prop in H as [Hs Hm].
  apply Bool.eqb_prop in Hs. apply Pos.eqb_eq in Hm. apply Z.eqb_eq in He.
  congruence.
Qed.

(** By evaluation: the 1024 words from 2^64 - 1024 on are all converted to
    the [double] 2^64. *)
Lemma top_words_round_up :
  forallb
    (fun i =>
       finite_eqb
         (binary_normalize prec emax (2 ^ 64 - 1024 + Z.of_nat i) 0 false)
         (binary_normalize prec emax (2 ^ 64) 0 false))
    (seq 0 1024)
  = true.
Proof. vm_compute. reflexivity. Qed.

Lemma double_of_top (n : Z) :
  2 ^ 64 - 1024 <= n < 2 ^ 64 ->
  double_of_u64 n = 18446744073709551616%float.
Proof.
  intros Hn. unfold double_of_u64.
  replace n with (2 ^ 64 - 1024 + Z.of_nat (Z.to_nat (n - (2 ^ 64 - 1024))))
    by lia.
  rewrite (finite_eqb_eq _ _
             (forallb_seq _ 1024 (Z.to_nat (n - (2 ^ 64 - 1024)))
                top_words_round_up ltac:(lia))).
  reflexivity.
Qed.

(** X12.  uniform(0.0, 1.0), the call that exponential and geometric make,
    returns exactly 1.0, its upper bound, whenever the accepted draw is at
    least 2^64 - 1024. *)
Theorem uniform_unit_returns_one (g : generator) (fuel : nat)
  (s s' : xoshiro256) (n : Z) :
  uniform_draw fuel g s = Some (n, s') ->
  2 ^ 64 - 1024 <= n ->
  uniform fuel g 0%float 1%float s = Some (1%float, s').
Proof.
  intros Hdraw Hn. unfold uniform. rewrite Hdraw. do 2 f_equal.
  apply uniform_draw_sound in Hdraw as (k & rs & s1 & _ & _ & _ & _ & Hr).
  unfold scale, UINT64_MAX in *.
  rewrite (double_of_top n), (double_of_top 0xFFFFFFFFFFFFFFFF) by lia.
  reflexivity.
Qed.

Lemma uniform_unit_returns_one_witness :
  uniform_draw 1 Xoshiro256ss (seeded 1 0x6c5b05b05b05b05b 3 4)
  = Some (2 ^ 64 - 2,
          State 7807840633976369246 7807840633976369241
                819855292164866050 13117839522525481824) /\
  2 ^ 64 - 1024 <= 2 ^ 64 - 2 /\
  uniform 1 Xoshiro256ss 0%float 1%float (seeded 1 0x6c5b05b05b05b05b 3 4)
  = Some (1%float,
          State 7807840633976369246 7807840633976369241
                819855292164866050 13117839522525481824).
Proof.
  assert (H : uniform_draw 1 Xoshiro256ss (seeded 1 0x6c5b05b05b05b05b 3 4)
              = Some (2 ^ 64 - 2,
                      State 7807840633976369246 7807840633976369241
                            819855292164866050 13117839522525481824))
    by (vm_compute; reflexivity).
  assert (Hn : 2 ^ 64 - 1024 <= 2 ^ 64 - 2) by lia.
  split; [exact H | ]. split; [exact Hn | ].
  exact (uniform_unit_returns_one Xoshiro256ss 1 _ _ _ H Hn).
Defined.

(** ** UI64T2String *)

(** X13.  UI64T2String writes different 64-bit words as different
    strings. *)
Theorem UI64T2String_injective (x y : Z) :
  is_u64 x -> is_u64 y -> x <> y -> UI64T2String x <> UI64T2String y.
Proof.
  intros Hx Hy Hxy H. apply Hxy.
  rewrite <- (Z.mod_small x (2 ^ 64)), <- (Z.mod_small y (2 ^ 64))
    by assumption.
  change (2 ^ 64) with (2 ^ Z.of_nat 64).
  rewrite <- !parse_bit_string, <- !UI64T2String_bits, H. reflexivity.
Qed.

Lemma UI64T2String_injective_5_6 :
  is_u64 5 /\ is_u64 6 /\ 5 <> 6 /\ UI64T2String 5 <> UI64T2String 6.
Proof.
  assert (H5 : is_u64 5) by (unfold is_u64; lia).
  assert (H6 : is_u64 6) by (unfold is_u64; lia).
  assert (H56 : 5 <> 6) by discriminate.
  split; [exact H5 | ]. split; [exact H6 | ]. split; [exact H56 | ].
  exact (UI64T2String_injective 5 6 H5 H6 H56).
Defined.

(** ** uniform on the all-zero state *)

(** X16.  On the all-zero state uniform never returns: every draw is 0 and
    is rejected, whatever the class and the bounds, so the loop of the
    source does not end. *)
Theorem uniform_loops_on_zero_state (g : generator) (low high : float)
  (fuel : nat) :
  uniform fuel g low high zero_state = None /\
  outputs g fuel zero_state = (repeat 0 fuel, zero_state).
Proof.
  split; [apply uniform_zero_state_rejects | ].
  induction fuel as [ | fuel IH]; [reflexivity | ].
  cbn [outputs repeat]. rewrite call_zero, IH. reflexivity.
Qed.
